(** * dolospy: rolling hash, winnowing filter and fingerprint index

    A shallow embedding of [src/dolospy/src/hashing.h], [hashing.cpp],
    [index.h] and [index.cpp].

    Conventions of the embedding.
    - Every C++ unsigned integer is a [Z]; where the source computes in a
      fixed width the wrap-around is written with [wrap64], [wrap32] or
      [wrap16].
    - [std::vector] is a [list], indexed through [Z.to_nat].
    - [std::unordered_map] is a [gmap], [std::set] a [gset] that is
      iterated in ascending order.  The order in which an [unordered_map]
      is enumerated is unspecified in C++: the snapshot written by
      [serialize] is stated for an arbitrary order ([snapshot]), and the
      result vector of [matchTokens] is given in the order of
      [map_to_list].
    - A C++ exception is [None] in the [option] monad.
    - [k = 0] and [w = 0] make the source divide by zero (undefined
      behaviour); statements that depend on the hashes computed assume
      [k >= 1] and [w >= 1]. *)

From Stdlib Require Import ZArith Zpow_facts Lia.
From stdpp Require Import base option list sorting gmap sets strings fin_maps.

Set Warnings "-register-all,-clear-no-such-hyp".

Open Scope Z_scope.

(* ===================================================================== *)
(** ** Fixed-width arithmetic *)

Definition wrap64 (z : Z) : Z := z mod 2 ^ 64.
Definition wrap32 (z : Z) : Z := z mod 2 ^ 32.
Definition wrap16 (z : Z) : Z := z mod 2 ^ 16.

(** [std::numeric_limits<uint64_t>::max()] *)
Definition UINT64_MAX : Z := 2 ^ 64 - 1.

(* ===================================================================== *)
(** ** hashing.h / hashing.cpp *)

Module Hashing.

(** [static constexpr uint64_t mod = 33554393;] *)
Definition mod_ : Z := 33554393.

(** One state of the [while (e > 1)] loop of [modPow]. *)
Record PowState := mkPow { pw_y : Z; pw_b : Z; pw_e : Z }.

(** Body of the loop, in [uint64_t] arithmetic:
    [if (e & 1) y = b * y % mod;  b = b * b % mod;  e >>= 1;] *)
Definition modPow_body (m : Z) (s : PowState) : PowState :=
  let y' := if Z.land (pw_e s) 1 =? 0 then pw_y s
            else wrap64 (pw_b s * pw_y s) mod m in
  mkPow y' (wrap64 (pw_b s * pw_b s) mod m) (Z.shiftr (pw_e s) 1).

(** The loop itself; [fuel] bounds the number of iterations.  A 64-bit
    exponent is halved at most 64 times. *)
Fixpoint modPow_loop (fuel : nat) (m : Z) (s : PowState) : PowState :=
  match fuel with
  | O => s
  | S fuel' => if 1 <? pw_e s then modPow_loop fuel' m (modPow_body m s)
               else s
  end.

(** [template <typename T> T modPow(base, exp, mod)] at [T = uint64_t]. *)
Definition modPow (base exp m : Z) : Z :=
  let s := modPow_loop 64 m (mkPow 1 base exp) in
  wrap64 (pw_b s * pw_y s) mod m.

(** [struct RollingHash].  [base] is the static constant. *)
Definition base : Z := 4194301.

Record RollingHash := mkRollingHash {
  rh_k : Z;
  rh_max_base : Z;
  rh_hash : Z;
  rh_i : Z;
  rh_memory : list Z
}.

(** [explicit RollingHash(const uint64_t k)] *)
Definition RollingHash_new (k : Z) : RollingHash :=
  {| rh_k := k;
     rh_max_base := wrap64 (mod_ - modPow base k mod_);
     rh_hash := 0;
     rh_i := 0;
     rh_memory := replicate (Z.to_nat k) 0 |}.

(** [memory[i]] *)
Definition mem_at (memory : list Z) (i : Z) : Z :=
  memory !!! Z.to_nat i.

(** [uint64_t RollingHash::operator()(const uint64_t tok)]:
<<
    hash = (base * hash + tok + max_base * memory[i]) % mod;
    memory[i] = tok;
    i = ++i % k;
    return hash;
>>
    The sum is computed in [uint64_t]; reducing once modulo [2 ^ 64] is the
    same as reducing after every operation. *)
Definition RollingHash_call (rh : RollingHash) (tok : Z) : Z * RollingHash :=
  let hash' :=
    wrap64 (base * rh_hash rh + tok + rh_max_base rh * mem_at (rh_memory rh) (rh_i rh))
      mod mod_ in
  (hash',
   {| rh_k := rh_k rh;
      rh_max_base := rh_max_base rh;
      rh_hash := hash';
      rh_i := wrap64 (rh_i rh + 1) mod rh_k rh;
      rh_memory := <[Z.to_nat (rh_i rh) := tok]> (rh_memory rh) |}).

(** [class RollingHashIterator]: dereferencing feeds the current token to
    the hasher, [++] moves to the next token.  [winnowFilter] dereferences
    every position once, in order, so the values it reads are the results
    of the successive calls. *)
Fixpoint RollingHash_run (rh : RollingHash) (tokens : list Z) : list Z :=
  match tokens with
  | [] => []
  | tok :: rest =>
      let '(v, rh') := RollingHash_call rh tok in v :: RollingHash_run rh' rest
  end.

(** The values read from [RollingHashIterator(k, tokens.begin())] up to
    [RollingHashIterator(k, tokens.end())]. *)
Definition rollingHashes (k : Z) (tokens : list Z) : list Z :=
  RollingHash_run (RollingHash_new k) tokens.

(** The hasher after [tokens] have been pushed into it one by one. *)
Definition RollingHash_feed (rh : RollingHash) (tokens : list Z) : RollingHash :=
  foldl (fun rh tok => (RollingHash_call rh tok).2) rh tokens.

(** A token code: an element of [TokenizedFile = std::vector<uint16_t>]. *)
Definition is_token (t : Z) : Prop := 0 <= t < 2 ^ 16.

(** [std::ranges::min_element(h)] followed by [std::distance]: the index
    of the first smallest element.  The library loop keeps the best
    position so far and replaces it only on a strictly smaller element. *)
Fixpoint min_element_from (best : nat) (bestv : Z) (i : nat) (l : list Z) : nat :=
  match l with
  | [] => best
  | x :: l' => if x <? bestv then min_element_from i x (S i) l'
               else min_element_from best bestv (S i) l'
  end.

Definition min_element (h : list Z) : Z :=
  match h with
  | [] => 0
  | x :: l => Z.of_nat (min_element_from 0 x 1 l)
  end.

(** State of the loop of [winnowFilter]. *)
Record Winnow := mkWinnow {
  wn_h : list Z;
  wn_r : Z;
  wn_min : Z;
  wn_filtered : list Z
}.

(** [h[i]] *)
Definition h_at (h : list Z) (i : Z) : Z := h !!! Z.to_nat i.

(** One iteration of the [for] loop, [v] being [*it]:
<<
    r = ++r % w;
    h[r] = *it;
    if (min == r) {
        min = std::distance(std::begin(h), std::ranges::min_element(h));
        filtered.emplace_back(h[min]);
    } else {
        if (h[min] < h[r]) {
            min = r;
            filtered.emplace_back(h[min]);
        }
    }
>> *)
Definition winnow_step (w : Z) (s : Winnow) (v : Z) : Winnow :=
  let r := wrap64 (wn_r s + 1) mod w in
  let h := <[Z.to_nat r := v]> (wn_h s) in
  if wn_min s =? r then
    let min := min_element h in
    mkWinnow h r min (wn_filtered s ++ [h_at h min])
  else if h_at h (wn_min s) <? h_at h r then
    mkWinnow h r r (wn_filtered s ++ [h_at h r])
  else
    mkWinnow h r (wn_min s) (wn_filtered s).

Definition winnow_init (w : Z) : Winnow :=
  mkWinnow (replicate (Z.to_nat w) UINT64_MAX) 0 0 [].

Definition winnow_run (w : Z) (s : Winnow) (hashes : list Z) : Winnow :=
  foldl (winnow_step w) s hashes.

(** [winnowFilter(w, begin, end, sizeEstimation)] over the values read from
    the range.  [sizeEstimation] only reserves capacity. *)
Definition winnowFilter (w : Z) (hashes : list Z) : list Z :=
  wn_filtered (winnow_run w (winnow_init w) hashes).

(** The incremental comparison as the specification words it: the new
    value is recorded when it is strictly smaller than the current
    minimum, [h[min] > h[r]].  Everything else is as in [winnow_step]. *)
Definition winnow_step_stated (w : Z) (s : Winnow) (v : Z) : Winnow :=
  let r := wrap64 (wn_r s + 1) mod w in
  let h := <[Z.to_nat r := v]> (wn_h s) in
  if wn_min s =? r then
    let min := min_element h in
    mkWinnow h r min (wn_filtered s ++ [h_at h min])
  else if h_at h r <? h_at h (wn_min s) then
    mkWinnow h r r (wn_filtered s ++ [h_at h r])
  else
    mkWinnow h r (wn_min s) (wn_filtered s).

Definition winnowFilter_stated (w : Z) (hashes : list Z) : list Z :=
  wn_filtered (foldl (winnow_step_stated w) (winnow_init w) hashes).

End Hashing.

Import Hashing.

(* ===================================================================== *)
(** ** JSON documents (boost::json values)

    [Index::serialize] builds a [json::object] and hands it to
    [json::serialize]; the loading constructor starts from
    [json::parse(...)].  The textual encoding belongs to the library and is
    not modelled: a snapshot is the document itself.  A number that the
    parser reads back as [int64] is one in the [int64] range; [as_int64]
    throws on any other value. *)

Inductive json :=
| JNumber (z : Z)
| JString (s : string)
| JArray (l : list json)
| JObject (l : list (string * json)).

Definition as_int64 (j : json) : option Z :=
  match j with
  | JNumber z => if (- 2 ^ 63 <=? z) && (z <? 2 ^ 63) then Some z else None
  | _ => None
  end.

Definition as_string (j : json) : option string :=
  match j with JString s => Some s | _ => None end.

Definition as_array (j : json) : option (list json) :=
  match j with JArray l => Some l | _ => None end.

Definition as_object (j : json) : option (list (string * json)) :=
  match j with JObject l => Some l | _ => None end.

(** [object::at(key)]: throws when the key is absent. *)
Fixpoint at_key (o : list (string * json)) (key : string) : option json :=
  match o with
  | [] => None
  | (key', v) :: o' => if decide (key' = key) then Some v else at_key o' key
  end.

(** [arr[n]]; the source does not check the length, an index out of range
    is treated like a thrown exception. *)
Definition elt (arr : list json) (n : nat) : option json := arr !! n.

(** A [for] loop whose body may throw. *)
Fixpoint foldlM {A B} (f : A -> B -> option A) (a : A) (l : list B) : option A :=
  match l with
  | [] => Some a
  | x :: l' => a' ← f a x; foldlM f a' l'
  end.

(* ===================================================================== *)
(** ** index.h / index.cpp *)

(** [struct Pair] *)
Record Pair := mkPair {
  pair_left : string;
  pair_right : string;
  covered : Z;
  leftTotal : Z;
  rightTotal : Z
}.

(** [struct Index] *)
Record Index := mkIndex {
  index : gmap Z (gset Z);
  groups : gmap Z (gset Z);
  identifiers : gmap string Z;
  names : gmap Z string;
  k : Z;
  w : Z
}.

(** [explicit Index(const uint16_t k, const uint16_t w)] *)
Definition Index_new (kk ww : Z) : Index :=
  mkIndex ∅ ∅ ∅ ∅ kk ww.

(** [m[key]] on an [unordered_map]: a missing key is first inserted with
    the value-initialised mapped value [d]. *)
Definition subscript `{Countable K} {V} (d : V) (m : gmap K V) (key : K)
  : V * gmap K V :=
  match m !! key with
  | Some v => (v, m)
  | None => (d, <[key := d]> m)
  end.

(** [m[key].insert(x)] *)
Definition insert_into `{Countable K} (m : gmap K (gset Z)) (key : K) (x : Z)
  : gmap K (gset Z) :=
  let '(s, m') := subscript ∅ m key in <[key := {[x]} ∪ s]> m'.

(** Iterating a [std::set]: ascending order. *)
Definition set_iter (s : gset Z) : list Z := merge_sort Z.le (elements s).

(** The fingerprints of a token sequence:
    [winnowFilter(w, RollingHashIterator(k, begin), RollingHashIterator(k, end), ...)]. *)
Definition fingerprints (idx : Index) (tokens : list Z) : list Z :=
  winnowFilter (w idx) (rollingHashes (k idx) tokens).

(** First half of [addToGroup]: find the identifier of [groupName] or
    register the next one, [identifiers.size()] converted to [uint16_t]. *)
Definition resolve (idx : Index) (groupName : string) : Z * Index :=
  match identifiers idx !! groupName with
  | None =>
      let identifier := wrap16 (Z.of_nat (size (identifiers idx))) in
      (identifier,
       mkIndex (index idx) (groups idx)
               (<[groupName := identifier]> (identifiers idx))
               (<[identifier := groupName]> (names idx))
               (k idx) (w idx))
  | Some identifier => (identifier, idx)
  end.

(** Body of the loop of [addToGroup]:
    [index[hash].insert(identifier); groups[identifier].insert(hash);] *)
Definition record_hash (identifier : Z) (idx : Index) (hash : Z) : Index :=
  mkIndex (insert_into (index idx) hash identifier)
          (insert_into (groups idx) identifier hash)
          (identifiers idx) (names idx) (k idx) (w idx).

(** [Pair Index::getPair(a, b)] is not [const]: the four subscripts may
    insert, so the index is threaded through. *)
Definition getPair (idx : Index) (a b : string) : Pair * Index :=
  let '(x, ids1) := subscript 0 (identifiers idx) a in
  let '(y, ids2) := subscript 0 ids1 b in
  let '(A, g1) := subscript ∅ (groups idx) x in
  let '(B, g2) := subscript ∅ g1 y in
  (mkPair a b
          (wrap32 (Z.of_nat (size (A ∩ B))))
          (wrap32 (Z.of_nat (size A)))
          (wrap32 (Z.of_nat (size B))),
   mkIndex (index idx) g2 ids2 (names idx) (k idx) (w idx)).

(** [sharedHashes[identifier] += 1] *)
Definition bump (sh : gmap Z Z) (identifier : Z) : gmap Z Z :=
  <[identifier := wrap32 (default 0 (sh !! identifier) + 1)]> sh.

(** Body of the loop over the fingerprints in [matchTokens]. *)
Definition match_hash (idx : Index) (acc : Z * gmap Z Z) (hash : Z) : Z * gmap Z Z :=
  (wrap32 (acc.1 + 1),
   match index idx !! hash with
   | Some ids => foldl bump acc.2 (set_iter ids)
   | None => acc.2
   end).

(** One element of the result of [matchTokens]; [names.at] throws on an
    identifier without a name. *)
Definition make_pair (idx : Index) (total : Z) (e : Z * Z) : option Pair :=
  name ← names idx !! e.1;
  Some (mkPair "external" name e.2 total
          (match groups idx !! e.1 with
           | Some g => wrap32 (Z.of_nat (size g))
           | None => 0
           end)).

(** [std::vector<Pair> Index::matchTokens(const TokenizedFile &tokens) const] *)
Definition matchTokens (idx : Index) (tokens : list Z) : option (list Pair) :=
  let sharedHashes0 :=
    foldl (fun sh e => <[e.2 := 0]> sh) (∅ : gmap Z Z)
          (map_to_list (identifiers idx)) in
  let acc := foldl (match_hash idx) (0, sharedHashes0) (fingerprints idx tokens) in
  mapM (make_pair idx acc.1) (map_to_list acc.2).

(** The document that [Index::serialize] hands to [json::serialize], when
    the loops over [identifiers] and [index] visit the entries in the
    orders [ids] and [ix]. *)
Definition snapshot (idx : Index) (ids : list (string * Z)) (ix : list (Z * gset Z))
  : json :=
  let sIdentifiers := (fun e => JArray [JString e.1; JNumber e.2]) <$> ids in
  let sIndex :=
    (fun e => JArray [JNumber e.1; JArray (JNumber <$> set_iter e.2)]) <$> ix in
  JObject [("k", JNumber (k idx)); ("w", JNumber (w idx));
           ("index", JArray sIndex); ("identifiers", JArray sIdentifiers)]%string.

(** [std::string Index::serialize() const], up to [json::serialize]. *)
Definition serialize (idx : Index) : json :=
  snapshot idx (map_to_list (identifiers idx)) (map_to_list (index idx)).

(** Body of the first loop of the loading constructor. *)
Definition load_identifier (acc : gmap string Z * gmap Z string) (tmp : json)
  : option (gmap string Z * gmap Z string) :=
  arr ← as_array tmp;
  name ← elt arr 0 ≫= as_string;
  id ← wrap16 <$> (elt arr 1 ≫= as_int64);
  Some (<[name := id]> acc.1, <[id := name]> acc.2).

(** Body of the inner loop of the second loop. *)
Definition load_id (hash : Z) (acc : gmap Z (gset Z) * gmap Z (gset Z)) (tmp2 : json)
  : option (gmap Z (gset Z) * gmap Z (gset Z)) :=
  id ← wrap16 <$> as_int64 tmp2;
  Some (insert_into acc.1 hash id, insert_into acc.2 id hash).

(** Body of the second loop; the fingerprint is narrowed to [uint32_t]. *)
Definition load_entry (acc : gmap Z (gset Z) * gmap Z (gset Z)) (tmp : json)
  : option (gmap Z (gset Z) * gmap Z (gset Z)) :=
  arr ← as_array tmp;
  hash ← wrap32 <$> (elt arr 0 ≫= as_int64);
  sIds ← elt arr 1 ≫= as_array;
  foldlM (load_id hash) acc sIds.

(** [explicit Index(const std::string &serialization)], from the parsed
    document on. *)
Definition deserialize (doc : json) : option Index :=
  s ← as_object doc;
  kk ← at_key s "k" ≫= as_int64;
  ww ← at_key s "w" ≫= as_int64;
  sIdentifiers ← at_key s "identifiers" ≫= as_array;
  reg ← foldlM load_identifier (∅, ∅) sIdentifiers;
  sIndex ← at_key s "index" ≫= as_array;
  maps ← foldlM load_entry (∅, ∅) sIndex;
  Some (mkIndex maps.1 maps.2 reg.1 reg.2 (wrap16 kk) (wrap16 ww)).

(** The numbers that the second loop of the loading constructor narrows
    to [uint32_t]: the first component of every entry of ["index"]. *)
Definition snapshot_hashes (doc : json) : option (list Z) :=
  s ← as_object doc;
  sIndex ← at_key s "index" ≫= as_array;
  mapM (fun tmp => arr ← as_array tmp; elt arr 0 ≫= as_int64) sIndex.

Section Tokenizer.

(** [TokenizedFile tokenize(std::span<const char>)] is the tree-sitter
    front end; the index only consumes its result. *)
Variable tokenize : string -> list Z.

(** [void Index::addToGroup(groupName, sourceCode)] *)
Definition addToGroup (idx : Index) (groupName sourceCode : string) : Index :=
  let '(identifier, idx1) := resolve idx groupName in
  foldl (record_hash identifier) idx1 (fingerprints idx (tokenize sourceCode)).

(** [std::vector<Pair> Index::matchExternal(sourceCode) const] *)
Definition matchExternal (idx : Index) (sourceCode : string) : option (list Pair) :=
  matchTokens idx (tokenize sourceCode).

(** An index obtained from [Index(k, w)] by a sequence of [addToGroup]
    calls, each given as (name, source text). *)
Definition build (kk ww : Z) (calls : list (string * string)) : Index :=
  foldl (fun idx c => addToGroup idx c.1 c.2) (Index_new kk ww) calls.

End Tokenizer.

(** A stand-in tokenizer for the worked examples: one token code per
    character. *)
Definition char_codes (s : string) : list Z :=
  (fun c => Z.of_nat (Ascii.nat_of_ascii c)) <$> String.list_ascii_of_string s.

(** [Index(3, 3)] after two documents were added. *)
Definition example_index : Index :=
  build char_codes 3 3
    [("a.js", "function f() { return 1; }"); ("b.js", "var x = f();")]%string.

(** The forward set of a document and the inverted-map entry of a
    fingerprint, read without inserting. *)
Definition forward (idx : Index) (d : Z) : gset Z := default ∅ (groups idx !! d).
Definition inverted (idx : Index) (F : Z) : gset Z := default ∅ (index idx !! F).

(* ===================================================================== *)
(** ** Further functions of the sources *)

(** The value of a byte read through a [char]: [char] is a signed 8-bit
    type here (as on x86-64), so the bytes from 128 on are negative. *)
Definition char_value (b : Z) : Z := if b <? 128 then b else b - 256.

(** [uint64_t tokenHash(char *tok)] of hashing.cpp:
<<
    uint64_t h = 0;
    while (char c = *tok++) { h = (h + c) * 747287 % mod; }
    return h;
>>
    [tok] lists the bytes before the terminating NUL.  The addition
    converts the [char] to [uint64_t], which sign-extends a negative
    character; the sum and the product wrap at 64 bits. *)
Definition tokenHash (tok : list Z) : Z :=
  foldl (fun h b => wrap64 (wrap64 (h + char_value b) * 747287) mod mod_) 0 tok.

Section Interface.

Variable tokenize : string -> list Z.

(** [std::vector<char> readFile(const std::string &name)] of
    interface/interface.cpp, over a file system given as a map from names
    to contents: a file that cannot be opened throws.  What the function
    prints is left out. *)
Definition readFile (fs : gmap string string) (name : string) : option string :=
  fs !! name.

(** [void compareFiles(const char *f1, const char *f2)]: the pair whose
    fields the function prints. *)
Definition compareFiles (fs : gmap string string) (f1 f2 : string) : option Pair :=
  file1 ← readFile fs f1;
  file2 ← readFile fs f2;
  let index0 := Index_new 17 23 in
  let index1 := addToGroup tokenize index0 f1 file1 in
  let index2 := addToGroup tokenize index1 f2 file2 in
  Some (getPair index2 f1 f2).1.

End Interface.

(** The polynomial in [base] whose coefficients are the tokens of a
    window, the oldest token in the highest place. *)
Definition poly_hash (window : list Z) : Z :=
  foldl (fun h t => h * base + t) 0 window.

(** The last [k] tokens pushed, with zeros in front while fewer than [k]
    tokens have been pushed. *)
Definition last_window (kk : Z) (pre : list Z) : list Z :=
  drop (length pre) (replicate (Z.to_nat kk) 0 ++ pre).

(** How many of the fingerprints [hashes], repetitions included, belong to
    document [d]. *)
Definition hits (idx : Index) (d : Z) (hashes : list Z) : nat :=
  length (filter (fun h => d ∈ inverted idx h) hashes).

(** The identifier that [getPair] uses for a name: the registered one, or
    0 for a name that is not registered. *)
Definition id_of (idx : Index) (name : string) : Z :=
  default 0 (identifiers idx !! name).

(** The counters [sharedHashes] of [matchTokens] when its last loop
    starts. *)
Definition sharedHashes (idx : Index) (tokens : list Z) : gmap Z Z :=
  (foldl (match_hash idx)
         (0, foldl (fun sh e => <[e.2 := 0]> sh) (∅ : gmap Z Z)
               (map_to_list (identifiers idx)))
         (fingerprints idx tokens)).2.

(** What the second loop of the constructor keeps: the two maps mirror
    each other and hold narrowed values only. *)
Definition loaded_ok (acc : gmap Z (gset Z) * gmap Z (gset Z)) : Prop :=
  (forall d F, d ∈ default ∅ (acc.1 !! F) <-> F ∈ default ∅ (acc.2 !! d))
  /\ (forall d F, d ∈ default ∅ (acc.1 !! F) -> 0 <= F < 2 ^ 32 /\ 0 <= d < 2 ^ 16).

(* ===================================================================== *)
(** ** Invariants and auxiliary notions used in the statements *)

(** What holds of the hasher after the tokens [pre] went through it. *)
Record RollingInv (kk : Z) (pre : list Z) (rh : RollingHash) : Prop := {
  ri_k : rh_k rh = kk;
  ri_max_base : rh_max_base rh = rh_max_base (RollingHash_new kk);
  ri_hash : 0 <= rh_hash rh < mod_;
  ri_i : rh_i rh = Z.of_nat (length pre) mod kk;
  ri_len : length (rh_memory rh) = Z.to_nat kk;
  ri_tokens : Forall is_token (rh_memory rh);
  ri_slots : forall p, 0 <= p < Z.of_nat (length pre) ->
                       Z.of_nat (length pre) - p <= kk ->
                       rh_memory rh !! Z.to_nat (p mod kk) = pre !! Z.to_nat p;
  ri_zeros : forall j, Z.of_nat (length pre) <= j < kk ->
                       rh_memory rh !! Z.to_nat j = Some 0
}.

(** What holds of the loop state after the window hashes [pre] were read.
    Times count the hashes from 1; the hash read at time [tau] is written
    to slot [tau mod w]. *)
Record WinnowInv (w : Z) (pre : list Z) (s : Winnow) : Prop := {
  wi_len : length (wn_h s) = Z.to_nat w;
  wi_r : wn_r s = Z.of_nat (length pre) mod w;
  wi_min : 0 <= wn_min s < w;
  wi_slots : forall tau, 1 <= tau <= Z.of_nat (length pre) ->
                         Z.of_nat (length pre) - tau < w ->
                         wn_h s !! Z.to_nat (tau mod w) = pre !! Z.to_nat (tau - 1);
  wi_sel : (wn_min s = 0 /\ Z.of_nat (length pre) < w)
           \/ (exists tau v, 1 <= tau <= Z.of_nat (length pre)
                             /\ Z.of_nat (length pre) - tau < w
                             /\ wn_min s = tau mod w
                             /\ pre !! Z.to_nat (tau - 1) = Some v
                             /\ v ∈ wn_filtered s);
  wi_sub : forall v, v ∈ wn_filtered s -> v ∈ pre
}.

(** Maps into sets whose entries are all non-empty are determined by the
    membership relation they induce. *)
Definition nonempty_entries `{Countable K} (m : gmap K (gset Z)) : Prop :=
  forall key s, m !! key = Some s -> s <> ∅.

(** The two maps mirror each other. *)
Definition mirror (idx : Index) : Prop :=
  forall d F, d ∈ inverted idx F <-> F ∈ forward idx d.

(** What every index built from the empty one satisfies, however many
    documents were added. *)
Record IndexInv (idx : Index) : Prop := {
  ii_index_ne : nonempty_entries (index idx);
  ii_groups_ne : nonempty_entries (groups idx);
  ii_fp_range : forall F, is_Some (index idx !! F) -> 0 <= F < mod_;
  ii_id_range : forall n i, identifiers idx !! n = Some i -> 0 <= i < 2 ^ 16;
  ii_named : forall n i, identifiers idx !! n = Some i -> is_Some (names idx !! i);
  ii_known : forall F d, d ∈ inverted idx F -> exists n, identifiers idx !! n = Some d
}.

(** The name/identifier registry is a bijection and the identifiers are
    handed out densely from 0.  This needs room in [uint16_t]: it holds
    while at most [2 ^ 16] names are registered. *)
Record Registry (idx : Index) : Prop := {
  rg_names : forall n i, identifiers idx !! n = Some i <-> names idx !! i = Some n;
  rg_dense : forall n i, identifiers idx !! n = Some i ->
                         0 <= i < Z.of_nat (size (identifiers idx))
}.

(** The effect of the two nested loops of the loading constructor on
    values that survive the narrowing casts. *)
Definition enter (F : Z) (acc : gmap Z (gset Z) * gmap Z (gset Z)) (d : Z)
  : gmap Z (gset Z) * gmap Z (gset Z) :=
  (insert_into acc.1 F d, insert_into acc.2 d F).

Definition enter_all (acc : gmap Z (gset Z) * gmap Z (gset Z)) (e : Z * gset Z)
  : gmap Z (gset Z) * gmap Z (gset Z) :=
  foldl (enter e.1) acc (set_iter e.2).

(** The registry is a bijection and the inverted map only mentions
    registered identifiers. *)
Definition well_formed (idx : Index) : Prop :=
  (forall n i, identifiers idx !! n = Some i <-> names idx !! i = Some n)
  /\ (forall F d, d ∈ inverted idx F -> is_Some (names idx !! d)).

(* ===================================================================== *)
(** * Properties *)

(** ** Arithmetic helpers *)

Lemma wrap64_small z : 0 <= z < 2 ^ 64 -> wrap64 z = z.
Proof. intros; unfold wrap64; apply Z.mod_small; lia. Qed.

Lemma wrap32_small z : 0 <= z < 2 ^ 32 -> wrap32 z = z.
Proof. intros; unfold wrap32; apply Z.mod_small; lia. Qed.

Lemma wrap16_small z : 0 <= z < 2 ^ 16 -> wrap16 z = z.
Proof. intros; unfold wrap16; apply Z.mod_small; lia. Qed.

Lemma wrap16_range z : 0 <= wrap16 z < 2 ^ 16.
Proof. unfold wrap16; apply Z.mod_pos_bound; lia. Qed.

(** Two integers with the same residue that are less than a modulus apart
    are equal. *)
Lemma mod_eq_close (n a b : Z) :
  0 < n -> a mod n = b mod n -> - n < a - b < n -> a = b.
Proof.
  intros Hn Hab Hclose.
  pose proof (Z.div_mod a n ltac:(lia)) as Ha.
  pose proof (Z.div_mod b n ltac:(lia)) as Hb.
  assert (a - b = n * (a / n - b / n)) as Hd by lia.
  assert (a / n - b / n = 0) by nia.
  lia.
Qed.

(** ** modPow *)

Section ModPow.

Variable m : Z.
Hypothesis m_range : 1 < m < 2 ^ 32.

Lemma mul_fits (a b : Z) :
  0 <= a < 2 ^ 32 -> 0 <= b < 2 ^ 32 -> wrap64 (a * b) = a * b.
Proof. intros; apply wrap64_small; nia. Qed.

Lemma land_1_parity e : 0 <= e -> Z.land e 1 = e mod 2.
Proof. intros; change 1 with (Z.ones 1); rewrite Z.land_ones by lia; reflexivity. Qed.

(** The loop invariant [y * b ^ e = base ^ exp (mod m)], carried to the
    exit of the loop: with enough fuel the loop ends with [b * y] congruent
    to the power. *)
Lemma modPow_loop_spec (fuel : nat) (y b e : Z) :
  0 <= y < 2 ^ 32 -> 0 <= b < 2 ^ 32 -> 1 <= e < 2 ^ Z.of_nat fuel ->
  let s := modPow_loop fuel m (mkPow y b e) in
  (pw_b s * pw_y s) mod m = (b ^ e * y) mod m
  /\ 0 <= pw_b s < 2 ^ 32 /\ 0 <= pw_y s < 2 ^ 32.
Proof.
  revert y b e; induction fuel as [|fuel IH]; intros y b e Hy Hb He.
  - simpl in He; lia.
  - cbn [modPow_loop pw_e]. destruct (1 <? e) eqn:Hlt.
    + apply Z.ltb_lt in Hlt.
      unfold modPow_body; cbn [pw_y pw_b pw_e].
      rewrite Z.shiftr_div_pow2 by lia. change (2 ^ 1) with 2.
      rewrite land_1_parity by lia.
      rewrite (mul_fits b b) by lia.
      assert (He2 : 1 <= e / 2 < 2 ^ Z.of_nat fuel).
      { rewrite Nat2Z.inj_succ, Z.pow_succ_r in He by lia.
        split; [apply Z.div_le_lower_bound; lia|apply Z.div_lt_upper_bound; lia]. }
      assert (Hb2 : 0 <= (b * b) mod m < 2 ^ 32).
      { pose proof (Z.mod_pos_bound (b * b) m ltac:(lia)); lia. }
      pose proof (Z.div_mod e 2 ltac:(lia)) as Hdm.
      pose proof (Z.mod_pos_bound e 2 ltac:(lia)) as Hpar.
      destruct (e mod 2 =? 0) eqn:Hodd.
      * apply Z.eqb_eq in Hodd.
        destruct (IH y ((b * b) mod m) (e / 2) Hy Hb2 He2) as (Heq & Hrb & Hry).
        split; [|split; assumption].
        rewrite Heq.
        rewrite <- Z.mul_mod_idemp_l by lia.
        rewrite <- Zpower_mod by lia.
        rewrite Z.mul_mod_idemp_l by lia.
        f_equal. f_equal.
        replace e with (2 * (e / 2)) at 2 by lia.
        rewrite Z.pow_mul_r by lia. f_equal. lia.
      * apply Z.eqb_neq in Hodd.
        rewrite (mul_fits b y) by lia.
        assert (Hy2 : 0 <= (b * y) mod m < 2 ^ 32).
        { pose proof (Z.mod_pos_bound (b * y) m ltac:(lia)); lia. }
        destruct (IH ((b * y) mod m) ((b * b) mod m) (e / 2) Hy2 Hb2 He2)
          as (Heq & Hrb & Hry).
        split; [|split; assumption].
        rewrite Heq.
        rewrite Z.mul_mod_idemp_r by lia.
        rewrite <- Z.mul_mod_idemp_l by lia.
        rewrite <- Zpower_mod by lia.
        rewrite Z.mul_mod_idemp_l by lia.
        f_equal.
        replace e with (2 * (e / 2) + 1) at 2 by lia.
        rewrite Z.pow_add_r, Z.pow_mul_r, Z.pow_1_r by lia.
        replace (b ^ 2) with (b * b) by lia. ring.
    + apply Z.ltb_ge in Hlt. assert (e = 1) by lia; subst e.
      cbn [pw_b pw_y]. rewrite Z.pow_1_r. auto.
Qed.

(** For a 64-bit exponent of at least one, [modPow] is modular
    exponentiation. *)
Lemma modPow_correct (b e : Z) :
  0 <= b < 2 ^ 32 -> 1 <= e < 2 ^ 64 ->
  modPow b e m = b ^ e mod m.
Proof.
  intros Hb He. unfold modPow.
  destruct (modPow_loop_spec 64 1 b e ltac:(lia) Hb He) as (Heq & Hrb & Hry).
  cbv zeta in *. rewrite mul_fits by assumption.
  rewrite Heq. f_equal. lia.
Qed.

End ModPow.

(** ** RollingHash *)

Lemma mod_range : 1 < mod_ < 2 ^ 32.
Proof. unfold mod_; lia. Qed.

Lemma base_range : 0 <= base < 2 ^ 32.
Proof. unfold base; lia. Qed.

(** The base is invertible modulo [mod_], so no power of it vanishes. *)
Lemma base_pow_nonzero (kk : Z) : 0 <= kk -> base ^ kk mod mod_ <> 0.
Proof.
  intros Hk Hz.
  assert (Hrp : Z.coprime (base ^ kk) mod_).
  { apply Z.coprime_pow_l; [assumption|]. vm_compute. reflexivity. }
  unfold Z.coprime in Hrp.
  apply Z.mod_divide in Hz; [|unfold mod_; lia].
  assert (Hg : Z.gcd (base ^ kk) mod_ = mod_).
  { rewrite Z.gcd_comm. apply Z.divide_gcd_iff; [unfold mod_; lia|assumption]. }
  rewrite Hg in Hrp. unfold mod_ in Hrp. lia.
Qed.

(** The constant computed by the constructor is the additive inverse of
    [base ^ k] modulo [mod_]; the subtraction never reaches [mod_] itself. *)
Lemma max_base_new (kk : Z) :
  1 <= kk < 2 ^ 64 ->
  rh_max_base (RollingHash_new kk) = (mod_ - base ^ kk mod mod_) mod mod_
  /\ 0 < rh_max_base (RollingHash_new kk) < mod_.
Proof.
  intros Hk. cbn [RollingHash_new rh_max_base].
  rewrite (modPow_correct mod_ mod_range base kk base_range Hk).
  pose proof (base_pow_nonzero kk ltac:(lia)) as Hnz.
  pose proof (Z.mod_pos_bound (base ^ kk) mod_ ltac:(unfold mod_; lia)) as Hb.
  rewrite wrap64_small by (unfold mod_ in *; lia).
  rewrite (Z.mod_small (mod_ - _)) by lia.
  split; [reflexivity|lia].
Qed.

Lemma RollingHash_feed_snoc rh pre tok :
  RollingHash_feed rh (pre ++ [tok])
  = (RollingHash_call (RollingHash_feed rh pre) tok).2.
Proof. unfold RollingHash_feed. rewrite foldl_app. reflexivity. Qed.

Lemma RollingInv_new (kk : Z) : 1 <= kk -> RollingInv kk [] (RollingHash_new kk).
Proof.
  intros Hk. split; cbn [RollingHash_new rh_k rh_max_base rh_hash rh_i rh_memory length].
  - reflexivity.
  - reflexivity.
  - unfold mod_; lia.
  - rewrite Z.mod_0_l by lia. reflexivity.
  - apply length_replicate.
  - apply Forall_replicate. unfold is_token; lia.
  - intros p Hp; simpl in Hp; lia.
  - intros j Hj. apply lookup_replicate_2. lia.
Qed.

Lemma RollingInv_step (kk : Z) pre rh tok :
  1 <= kk < 2 ^ 64 -> is_token tok ->
  RollingInv kk pre rh ->
  RollingInv kk (pre ++ [tok]) (RollingHash_call rh tok).2.
Proof.
  intros Hk Htok [Ik Imb Ih Ii Il It Is Iz].
  pose proof (Z.mod_pos_bound (Z.of_nat (length pre)) kk ltac:(lia)) as Hi.
  split; cbn [RollingHash_call snd rh_k rh_max_base rh_hash rh_i rh_memory].
  - assumption.
  - assumption.
  - apply Z.mod_pos_bound. unfold mod_; lia.
  - rewrite Ik, Ii, length_app, Nat2Z.inj_add. cbn [length].
    rewrite wrap64_small by lia.
    rewrite Z.add_mod_idemp_l by lia. reflexivity.
  - rewrite length_insert. assumption.
  - apply Forall_insert; assumption.
  - intros p Hp Hd. rewrite length_app, Nat2Z.inj_add in Hp, Hd. cbn [length] in Hp, Hd.
    rewrite Ii.
    destruct (decide (p = Z.of_nat (length pre))) as [->|Hne].
    + rewrite list_lookup_insert_eq by lia.
      rewrite Nat2Z.id, lookup_app_r, Nat.sub_diag by lia. reflexivity.
    + assert (Hmod : Z.of_nat (length pre) mod kk <> p mod kk).
      { intros Heq. apply mod_eq_close in Heq; lia. }
      pose proof (Z.mod_pos_bound p kk ltac:(lia)).
      rewrite list_lookup_insert_ne by lia.
      rewrite lookup_app_l by lia.
      apply Is; lia.
  - intros j Hj. rewrite length_app, Nat2Z.inj_add in Hj. cbn [length] in Hj.
    rewrite Ii, Z.mod_small by lia.
    rewrite list_lookup_insert_ne by lia.
    apply Iz; lia.
Qed.

Lemma RollingInv_feed (kk : Z) (pre : list Z) :
  1 <= kk < 2 ^ 64 -> Forall is_token pre ->
  RollingInv kk pre (RollingHash_feed (RollingHash_new kk) pre).
Proof.
  intros Hk. induction pre as [|tok pre IH] using rev_ind; intros Hpre.
  - apply RollingInv_new; lia.
  - apply Forall_app in Hpre as [Hpre Htok].
    rewrite RollingHash_feed_snoc.
    apply RollingInv_step; [assumption| |auto].
    inversion Htok; assumption.
Qed.

(** The entry under the cursor is the token pushed [k] calls ago, and [0]
    while fewer than [k] tokens have been pushed. *)
Lemma RollingInv_oldest (kk : Z) pre rh :
  1 <= kk -> RollingInv kk pre rh ->
  mem_at (rh_memory rh) (rh_i rh)
  = if Z.of_nat (length pre) <? kk then 0
    else pre !!! Z.to_nat (Z.of_nat (length pre) - kk).
Proof.
  intros Hk [Ik Imb Ih Ii Il It Is Iz]. unfold mem_at. rewrite Ii.
  destruct (Z.of_nat (length pre) <? kk) eqn:Hlt.
  - apply Z.ltb_lt in Hlt. rewrite Z.mod_small by lia.
    apply list_lookup_total_correct, Iz. lia.
  - apply Z.ltb_ge in Hlt.
    replace (Z.of_nat (length pre) mod kk)
      with ((Z.of_nat (length pre) - kk) mod kk).
    2:{ replace (Z.of_nat (length pre) - kk)
          with (Z.of_nat (length pre) + (-1) * kk) by lia.
        apply Z_mod_plus_full. }
    apply list_lookup_total_correct.
    rewrite Is by lia.
    apply list_lookup_lookup_total_lt. lia.
Qed.

(** The values read through the iterator are the results of the
    successive calls. *)
Lemma RollingHash_run_snoc rh pre tok :
  RollingHash_run rh (pre ++ [tok])
  = RollingHash_run rh pre ++ [(RollingHash_call (RollingHash_feed rh pre) tok).1].
Proof.
  revert rh; induction pre as [|t pre IH]; intros rh.
  - cbn [app RollingHash_run RollingHash_feed foldl].
    by destruct (RollingHash_call rh tok).
  - cbn [app RollingHash_run]. specialize (IH (RollingHash_call rh t).2).
    unfold RollingHash_feed in *. cbn [foldl].
    destruct (RollingHash_call rh t) as [v rh']. cbn [snd] in *.
    by rewrite IH.
Qed.

(** C5.  For a window length [k >= 1] and a hasher that has consumed the
    token codes [pre], pushing the token code [tok] returns
    [(b * h + tok + max_base * oldest) mod p]: [h] is the previous hash,
    [oldest] the buffer entry under the cursor, which is [0] until [k]
    tokens have been pushed and the token pushed [k] calls earlier after
    that, [p = 33554393], [b = 4194301] and
    [max_base = (p - b ^ k mod p) mod p].  The call stores [tok] under the
    cursor and moves the cursor on by one modulo [k]. *)
Theorem rolling_hash_update (kk : Z) (pre : list Z) (tok : Z) :
  1 <= kk < 2 ^ 64 -> Forall is_token pre -> is_token tok ->
  let rh := RollingHash_feed (RollingHash_new kk) pre in
  let n := Z.of_nat (length pre) in
  let oldest := if n <? kk then 0 else pre !!! Z.to_nat (n - kk) in
  let max_base := (33554393 - 4194301 ^ kk mod 33554393) mod 33554393 in
  let h' := (4194301 * rh_hash rh + tok + max_base * oldest) mod 33554393 in
  rh_i rh = n mod kk
  /\ mem_at (rh_memory rh) (rh_i rh) = oldest
  /\ RollingHash_call rh tok
     = (h', mkRollingHash kk max_base h' ((rh_i rh + 1) mod kk)
              (<[Z.to_nat (rh_i rh) := tok]> (rh_memory rh))).
Proof.
  intros Hk Hpre Htok rh n oldest max_base h'.
  pose proof (RollingInv_feed kk pre Hk Hpre) as Hinv. fold rh in Hinv.
  pose proof (RollingInv_oldest kk pre rh ltac:(lia) Hinv) as Hold.
  fold n in Hold. fold oldest in Hold.
  destruct Hinv as [Ik Imb Ih Ii Il It Is Iz]. fold n in Ii.
  destruct (max_base_new kk Hk) as [Hmb Hmbr].
  rewrite <- Imb in Hmb, Hmbr.
  change ((mod_ - base ^ kk mod mod_) mod mod_) with max_base in Hmb.
  pose proof (Z.mod_pos_bound n kk ltac:(lia)) as Hi.
  assert (Hor : 0 <= oldest < 2 ^ 16).
  { rewrite <- Hold. unfold mem_at.
    assert (Hlt : (Z.to_nat (rh_i rh) < length (rh_memory rh))%nat) by lia.
    apply list_lookup_lookup_total_lt in Hlt.
    rewrite Forall_lookup in It. exact (It _ _ Hlt). }
  split; [assumption|]. split; [assumption|].
  unfold RollingHash_call. rewrite Hold, Hmb, Ik.
  unfold is_token in Htok. unfold mod_, base in *.
  rewrite (wrap64_small (rh_i rh + 1)) by lia.
  rewrite wrap64_small by nia.
  reflexivity.
Qed.

Lemma rolling_hash_update_witness :
  RollingHash_call (RollingHash_feed (RollingHash_new 3) [1; 2; 3; 4]) 5
  = (2621460, mkRollingHash 3 4653044 2621460 2 [4; 5; 3]).
Proof.
  pose proof (rolling_hash_update 3 [1; 2; 3; 4] 5) as H.
  destruct H as (_ & _ & H).
  - lia.
  - repeat constructor; unfold is_token; lia.
  - unfold is_token; lia.
  - rewrite H. vm_compute. reflexivity.
Defined.

(** ** min_element *)

Lemma min_element_from_bound (l : list Z) (best i : nat) (bestv : Z) :
  (best < i)%nat -> (min_element_from best bestv i l < i + length l)%nat.
Proof.
  revert best i bestv; induction l as [|x l IH]; intros best i bestv Hb; cbn.
  - lia.
  - destruct (x <? bestv).
    + specialize (IH i (S i) x ltac:(lia)). lia.
    + specialize (IH best (S i) bestv ltac:(lia)). lia.
Qed.

Lemma min_element_range (h : list Z) :
  h <> [] -> 0 <= min_element h < Z.of_nat (length h).
Proof.
  destruct h as [|x l]; [congruence|intros _].
  unfold min_element. pose proof (min_element_from_bound l 0 1 x ltac:(lia)).
  cbn [length]. lia.
Qed.

(** ** winnowFilter *)

Lemma winnow_run_snoc w s pre v :
  winnow_run w s (pre ++ [v]) = winnow_step w (winnow_run w s pre) v.
Proof. unfold winnow_run. rewrite foldl_app. reflexivity. Qed.

Lemma winnow_run_app w s l1 l2 :
  winnow_run w s (l1 ++ l2) = winnow_run w (winnow_run w s l1) l2.
Proof. unfold winnow_run. apply foldl_app. Qed.

(** Fingerprints are only ever appended. *)
Lemma winnow_step_prefix w s v :
  wn_filtered s `prefix_of` wn_filtered (winnow_step w s v).
Proof.
  unfold winnow_step.
  repeat case_match; cbn [wn_filtered];
    first [reflexivity | apply prefix_app_r; reflexivity].
Qed.

Lemma winnow_run_prefix w l s :
  wn_filtered s `prefix_of` wn_filtered (winnow_run w s l).
Proof.
  revert s; induction l as [|v l IH]; intros s; [reflexivity|].
  cbn. etransitivity; [apply winnow_step_prefix|apply IH].
Qed.

(** Each window hash adds at most one fingerprint. *)
Lemma winnow_run_length w l s :
  (length (wn_filtered (winnow_run w s l)) <= length (wn_filtered s) + length l)%nat.
Proof.
  revert s; induction l as [|v l IH]; intros s; cbn; [lia|].
  specialize (IH (winnow_step w s v)).
  assert (length (wn_filtered (winnow_step w s v)) <= S (length (wn_filtered s)))%nat.
  { unfold winnow_step. repeat case_match; cbn [wn_filtered];
      rewrite ?length_app; cbn; lia. }
  unfold winnow_run in IH. lia.
Qed.

(** In a window of [w] consecutive times ending at [t] every slot of the
    circular buffer is the target of exactly one write. *)
Lemma slot_time (w t i : Z) :
  0 < w -> w <= t -> 0 <= i < w ->
  exists tau, 1 <= tau <= t /\ t - tau < w /\ tau mod w = i.
Proof.
  intros Hw Ht Hi. exists (t - (t - i) mod w).
  pose proof (Z.mod_pos_bound (t - i) w Hw).
  repeat split; try lia.
  rewrite Zminus_mod_idemp_r.
  replace (t - (t - i)) with i by lia.
  apply Z.mod_small; lia.
Qed.

Lemma WinnowInv_init (w : Z) : 1 <= w -> WinnowInv w [] (winnow_init w).
Proof.
  intros Hw. split; cbn [winnow_init wn_h wn_r wn_min wn_filtered length].
  - apply length_replicate.
  - rewrite Z.mod_0_l by lia. reflexivity.
  - lia.
  - intros tau Ht; lia.
  - left. split; [reflexivity|lia].
  - intros v Hv. inversion Hv.
Qed.

Lemma WinnowInv_step (w : Z) pre s v :
  1 <= w < 2 ^ 32 -> WinnowInv w pre s ->
  WinnowInv w (pre ++ [v]) (winnow_step w s v).
Proof.
  intros Hw [Il Ir Im Is Isel Isub].
  assert (Hlen' : Z.of_nat (length (pre ++ [v])) = Z.of_nat (length pre) + 1).
  { rewrite length_app; cbn; lia. }
  set (t := Z.of_nat (length pre)) in *.
  assert (Ht : 0 <= t) by lia.
  pose proof (Z.mod_pos_bound t w ltac:(lia)) as Hr.
  pose proof (Z.mod_pos_bound (t + 1) w ltac:(lia)) as Hr'r.
  assert (Hr' : wrap64 (wn_r s + 1) mod w = (t + 1) mod w).
  { rewrite Ir, wrap64_small by lia. apply Z.add_mod_idemp_l; lia. }
  assert (Hslots : forall tau, 1 <= tau <= t + 1 -> t + 1 - tau < w ->
            <[Z.to_nat ((t + 1) mod w) := v]> (wn_h s) !! Z.to_nat (tau mod w)
            = (pre ++ [v]) !! Z.to_nat (tau - 1)).
  { intros tau Ht1 Ht2. destruct (decide (tau = t + 1)) as [->|Hne].
    - rewrite list_lookup_insert_eq by lia. rewrite lookup_app_r by lia.
      replace (Z.to_nat (t + 1 - 1) - length pre)%nat with 0%nat by lia.
      reflexivity.
    - assert (tau mod w <> (t + 1) mod w).
      { intros Heq. apply mod_eq_close in Heq; lia. }
      pose proof (Z.mod_pos_bound tau w ltac:(lia)).
      rewrite list_lookup_insert_ne by lia. rewrite lookup_app_l by lia.
      apply Is; lia. }
  assert (Hnew : (pre ++ [v]) !! Z.to_nat (t + 1 - 1) = Some v).
  { rewrite lookup_app_r by lia.
    replace (Z.to_nat (t + 1 - 1) - length pre)%nat with 0%nat by lia.
    reflexivity. }
  unfold winnow_step. rewrite Hr'.
  set (h' := <[Z.to_nat ((t + 1) mod w) := v]> (wn_h s)) in *.
  assert (Hlen_h' : length h' = Z.to_nat w).
  { subst h'; rewrite length_insert; assumption. }
  destruct (wn_min s =? (t + 1) mod w) eqn:Hmin.
  - (* the selected slot was overwritten: rescan *)
    apply Z.eqb_eq in Hmin.
    assert (Hfull : w <= t + 1).
    { destruct Isel as [[Hm0 Hlt]|(tau & x & Ht1 & Ht2 & Hm & _)].
      - destruct (decide (t + 1 < w)); [|lia].
        rewrite Z.mod_small in Hmin by lia. lia.
      - destruct (decide (t + 1 - tau < w)); [|lia].
        rewrite Hm in Hmin. apply mod_eq_close in Hmin; lia. }
    assert (Hne : h' <> []).
    { intros E. rewrite E in Hlen_h'. simpl in Hlen_h'. lia. }
    pose proof (min_element_range h' Hne) as Hm.
    rewrite Hlen_h', Z2Nat.id in Hm by lia.
    destruct (slot_time w (t + 1) (min_element h') ltac:(lia) Hfull Hm)
      as (tau & Ht1 & Ht2 & Htau).
    pose proof (Hslots tau Ht1 Ht2) as Hs. rewrite Htau in Hs.
    assert (is_Some (h' !! Z.to_nat (min_element h'))) as [x Hx].
    { apply lookup_lt_is_Some. lia. }
    assert (Hat : h_at h' (min_element h') = x).
    { apply list_lookup_total_correct; assumption. }
    rewrite Hat. rewrite Hx in Hs.
    split; cbn [wn_h wn_r wn_min wn_filtered]; rewrite ?Hlen'.
    + assumption.
    + reflexivity.
    + lia.
    + assumption.
    + right. exists tau, x. repeat split; try lia; [congruence|].
      apply elem_of_app; right. constructor.
    + intros y Hy. apply elem_of_app in Hy as [Hy|Hy].
      * apply elem_of_app; left; auto.
      * apply list_elem_of_singleton in Hy; subst y.
        apply list_elem_of_lookup. exists (Z.to_nat (tau - 1)). congruence.
  - apply Z.eqb_neq in Hmin.
    assert (Hatr : h_at h' ((t + 1) mod w) = v).
    { apply list_lookup_total_correct. subst h'.
      apply list_lookup_insert_eq. lia. }
    destruct (h_at h' (wn_min s) <? h_at h' ((t + 1) mod w)) eqn:Hcmp.
    + (* the new hash is selected *)
      rewrite Hatr.
      split; cbn [wn_h wn_r wn_min wn_filtered]; rewrite ?Hlen'.
      * assumption.
      * reflexivity.
      * lia.
      * assumption.
      * right. exists (t + 1), v. repeat split; try lia; [assumption|].
        apply elem_of_app; right. constructor.
      * intros y Hy. apply elem_of_app in Hy as [Hy|Hy].
        -- apply elem_of_app; left; auto.
        -- apply elem_of_app; right; assumption.
    + (* the selection stays *)
      split; cbn [wn_h wn_r wn_min wn_filtered]; rewrite ?Hlen'.
      * assumption.
      * reflexivity.
      * lia.
      * assumption.
      * destruct Isel as [[Hm0 Hlt]|(tau & x & Ht1 & Ht2 & Hm & Hx & Hin)].
        -- left. split; [assumption|].
           destruct (decide (t + 1 < w)); [lia|]. exfalso. apply Hmin.
           rewrite Hm0. replace (t + 1) with w by lia.
           symmetry; apply Z_mod_same_full.
        -- right. exists tau, x. repeat split; try lia; [| |assumption].
           ++ destruct (decide (t + 1 - tau < w)); [lia|]. exfalso. apply Hmin.
              rewrite Hm. replace (t + 1) with (tau + 1 * w) by lia.
              rewrite Z_mod_plus_full. reflexivity.
           ++ rewrite lookup_app_l by lia. assumption.
      * intros y Hy. apply elem_of_app; left; auto.
Qed.

Lemma WinnowInv_run (w : Z) (pre : list Z) :
  1 <= w < 2 ^ 32 -> WinnowInv w pre (winnow_run w (winnow_init w) pre).
Proof.
  intros Hw. induction pre as [|v pre IH] using rev_ind.
  - apply WinnowInv_init; lia.
  - rewrite winnow_run_snoc. apply WinnowInv_step; assumption.
Qed.

(** Every fingerprint is one of the window hashes read. *)
Lemma winnowFilter_subset (w : Z) (hashes : list Z) (v : Z) :
  1 <= w < 2 ^ 32 -> v ∈ winnowFilter w hashes -> v ∈ hashes.
Proof. intros Hw. apply (wi_sub _ _ _ (WinnowInv_run w hashes Hw)). Qed.

Lemma winnowFilter_length (w : Z) (hashes : list Z) :
  (length (winnowFilter w hashes) <= length hashes)%nat.
Proof.
  unfold winnowFilter.
  pose proof (winnow_run_length w hashes (winnow_init w)) as H.
  cbn in H. exact H.
Qed.

(** C2.  Whatever the window hashes and the window size [w >= 1] (a
    [uint32_t]), every run of [w] consecutive window hashes contains a
    value that occurs among the fingerprints returned by [winnowFilter]. *)
Theorem winnow_coverage (w : Z) (hashes : list Z) (j : nat) :
  1 <= w < 2 ^ 32 -> (j + Z.to_nat w <= length hashes)%nat ->
  exists v, v ∈ take (Z.to_nat w) (drop j hashes) /\ v ∈ winnowFilter w hashes.
Proof.
  intros Hw Hj.
  set (t := (j + Z.to_nat w)%nat).
  pose proof (WinnowInv_run w (take t hashes) Hw) as Hinv.
  assert (Hlen : length (take t hashes) = t) by (apply length_take_le; lia).
  destruct (wi_sel _ _ _ Hinv) as [[_ Hlt]|(tau & v & Ht1 & Ht2 & _ & Hv & Hin)].
  { rewrite Hlen in Hlt. lia. }
  rewrite Hlen in Ht1, Ht2.
  exists v. split.
  - apply list_elem_of_lookup. exists (Z.to_nat (tau - 1) - j)%nat.
    rewrite lookup_take_lt by lia. rewrite lookup_drop.
    rewrite lookup_take_lt in Hv by lia.
    replace (j + (Z.to_nat (tau - 1) - j))%nat with (Z.to_nat (tau - 1)) by lia.
    assumption.
  - unfold winnowFilter. rewrite <- (take_drop t hashes), winnow_run_app.
    eapply elem_of_prefix; [exact Hin|apply winnow_run_prefix].
Qed.

Lemma winnow_coverage_witness :
  exists v, v ∈ take (Z.to_nat 3) (drop 3 [5; 3; 3; 7; 1; 1; 1; 9])
            /\ v ∈ winnowFilter 3 [5; 3; 3; 7; 1; 1; 1; 9].
Proof.
  apply (winnow_coverage 3 [5; 3; 3; 7; 1; 1; 1; 9] 3).
  - lia.
  - cbn. lia.
Defined.

(** C1.  On the golden input the fingerprints returned by [winnowFilter]
    are [3; 7; 1; 9], while the algorithm as stated, which records the
    incoming hash when it is strictly smaller than the current minimum,
    yields [5; 3; 1; 1].  The source tests [h[min] < h[r]] and so records
    the incoming hash when it is strictly larger. *)
Theorem winnow_golden_sequence :
  winnowFilter 3 [5; 3; 3; 7; 1; 1; 1; 9] = [3; 7; 1; 9]
  /\ winnowFilter_stated 3 [5; 3; 3; 7; 1; 1; 1; 9] = [5; 3; 1; 1].
Proof. split; vm_compute; reflexivity. Qed.

(** The incremental branch of the loop: away from the selected slot a
    fingerprint is recorded exactly when the incoming hash is strictly
    larger than the selected one; on a tie or a smaller hash nothing is
    recorded and the selection stays. *)
Lemma winnow_step_incremental (w : Z) (s : Winnow) (v : Z) :
  let r := wrap64 (wn_r s + 1) mod w in
  let h := <[Z.to_nat r := v]> (wn_h s) in
  wn_min s <> r ->
  (h_at h (wn_min s) < h_at h r ->
     wn_filtered (winnow_step w s v) = wn_filtered s ++ [h_at h r]
     /\ wn_min (winnow_step w s v) = r)
  /\ (h_at h r <= h_at h (wn_min s) ->
     wn_filtered (winnow_step w s v) = wn_filtered s
     /\ wn_min (winnow_step w s v) = wn_min s).
Proof.
  intros r h Hne. unfold winnow_step. fold r. fold h.
  destruct (wn_min s =? r) eqn:E; [apply Z.eqb_eq in E; contradiction|].
  split; intros Hc.
  - apply Z.ltb_lt in Hc. rewrite Hc. split; reflexivity.
  - apply Z.ltb_ge in Hc. rewrite Hc. split; reflexivity.
Qed.

(** ** Index: recording fingerprints *)

Lemma insert_into_eq `{Countable K} (m : gmap K (gset Z)) (key : K) (x : Z) :
  insert_into m key x = <[key := {[x]} ∪ default ∅ (m !! key)]> m.
Proof.
  unfold insert_into, subscript. destruct (m !! key) as [s|]; cbn [default].
  - reflexivity.
  - by rewrite insert_insert_eq.
Qed.

Lemma lookup_insert_into `{Countable K} (m : gmap K (gset Z)) (key key' : K) (x : Z) :
  default ∅ (insert_into m key x !! key')
  = if decide (key = key') then {[x]} ∪ default ∅ (m !! key)
    else default ∅ (m !! key').
Proof.
  rewrite insert_into_eq. destruct (decide (key = key')) as [->|Hne].
  - by rewrite lookup_insert_eq.
  - by rewrite lookup_insert_ne.
Qed.

Lemma elem_of_insert_into `{Countable K} (m : gmap K (gset Z)) (key key' : K) (x y : Z) :
  y ∈ default ∅ (insert_into m key x !! key')
  <-> y ∈ default ∅ (m !! key') \/ (key' = key /\ y = x).
Proof.
  rewrite lookup_insert_into. destruct (decide (key = key')) as [->|Hne].
  - set_solver.
  - split; [auto|]. intros [?|[-> _]]; [done|congruence].
Qed.

Lemma nonempty_entries_insert_into `{Countable K} (m : gmap K (gset Z)) key x :
  nonempty_entries m -> nonempty_entries (insert_into m key x).
Proof.
  intros Hm key' s. rewrite insert_into_eq.
  destruct (decide (key = key')) as [->|Hne].
  - rewrite lookup_insert_eq. intros [= <-]. set_solver.
  - rewrite lookup_insert_ne by done. apply Hm.
Qed.

Lemma nonempty_entries_ext `{Countable K} (m1 m2 : gmap K (gset Z)) :
  nonempty_entries m1 -> nonempty_entries m2 ->
  (forall key y, y ∈ default ∅ (m1 !! key) <-> y ∈ default ∅ (m2 !! key)) ->
  m1 = m2.
Proof.
  intros H1 H2 Hext. apply map_eq; intros key.
  specialize (Hext key).
  destruct (m1 !! key) as [s1|] eqn:E1, (m2 !! key) as [s2|] eqn:E2;
    cbn [default] in Hext.
  - f_equal. apply set_eq. exact Hext.
  - exfalso. apply (H1 _ _ E1). set_solver.
  - exfalso. apply (H2 _ _ E2). set_solver.
  - reflexivity.
Qed.

Lemma record_hash_fold_fields identifier hashes idx :
  let idx' := foldl (record_hash identifier) idx hashes in
  identifiers idx' = identifiers idx /\ names idx' = names idx
  /\ k idx' = k idx /\ w idx' = w idx.
Proof.
  revert idx; induction hashes as [|h hashes IH]; intros idx; cbn; [done|].
  destruct (IH (record_hash identifier idx h)) as (-> & -> & -> & ->). done.
Qed.

Lemma elem_of_inverted_fold identifier hashes idx F d :
  d ∈ inverted (foldl (record_hash identifier) idx hashes) F
  <-> d ∈ inverted idx F \/ (d = identifier /\ F ∈ hashes).
Proof.
  revert idx; induction hashes as [|h hashes IH]; intros idx; cbn [foldl].
  - split; [auto|]. intros [?|[_ Hin]]; [done|]. inversion Hin.
  - rewrite IH. unfold inverted at 1. cbn [record_hash index].
    rewrite elem_of_insert_into. fold (inverted idx F).
    rewrite elem_of_cons. naive_solver.
Qed.

Lemma elem_of_forward_fold identifier hashes idx F d :
  F ∈ forward (foldl (record_hash identifier) idx hashes) d
  <-> F ∈ forward idx d \/ (d = identifier /\ F ∈ hashes).
Proof.
  revert idx; induction hashes as [|h hashes IH]; intros idx; cbn [foldl].
  - split; [auto|]. intros [?|[_ Hin]]; [done|]. inversion Hin.
  - rewrite IH. unfold forward at 1. cbn [record_hash groups].
    rewrite elem_of_insert_into. fold (forward idx d).
    rewrite elem_of_cons. naive_solver.
Qed.

Lemma nonempty_entries_fold identifier hashes idx :
  nonempty_entries (index idx) -> nonempty_entries (groups idx) ->
  let idx' := foldl (record_hash identifier) idx hashes in
  nonempty_entries (index idx') /\ nonempty_entries (groups idx').
Proof.
  revert idx; induction hashes as [|h hashes IH]; intros idx Hi Hg; cbn; [done|].
  apply IH; cbn [record_hash index groups];
    by apply nonempty_entries_insert_into.
Qed.

Lemma resolve_maps idx groupName :
  index (resolve idx groupName).2 = index idx
  /\ groups (resolve idx groupName).2 = groups idx
  /\ k (resolve idx groupName).2 = k idx
  /\ w (resolve idx groupName).2 = w idx.
Proof. unfold resolve. by destruct (identifiers idx !! groupName). Qed.

Lemma resolve_forward idx groupName d :
  forward (resolve idx groupName).2 d = forward idx d.
Proof. unfold forward. by rewrite (proj1 (proj2 (resolve_maps idx groupName))). Qed.

Lemma resolve_inverted idx groupName F :
  inverted (resolve idx groupName).2 F = inverted idx F.
Proof. unfold inverted. by rewrite (proj1 (resolve_maps idx groupName)). Qed.

Section IndexProperties.

Variable tokenize : string -> list Z.

Lemma addToGroup_unfold idx groupName sourceCode :
  addToGroup tokenize idx groupName sourceCode
  = foldl (record_hash (resolve idx groupName).1) (resolve idx groupName).2
          (fingerprints idx (tokenize sourceCode)).
Proof. unfold addToGroup. by destruct (resolve idx groupName). Qed.

Lemma build_snoc kk ww calls c :
  build tokenize kk ww (calls ++ [c])
  = addToGroup tokenize (build tokenize kk ww calls) c.1 c.2.
Proof. unfold build. by rewrite foldl_app. Qed.

Lemma mirror_addToGroup idx groupName sourceCode :
  mirror idx -> mirror (addToGroup tokenize idx groupName sourceCode).
Proof.
  intros Hm d F. rewrite addToGroup_unfold.
  rewrite elem_of_inverted_fold, elem_of_forward_fold.
  rewrite resolve_inverted, resolve_forward, (Hm d F). reflexivity.
Qed.

(** C9.  Adding under a name that is already registered keeps the
    identifier maps as they are, so no second identifier is created, and
    the fingerprints of the new text are united with what the document
    already has: its forward set grows by them, their inverted-map entries
    gain the document, and nothing else changes. *)
Theorem addToGroup_registered (idx : Index) (groupName sourceCode : string) (id : Z) :
  identifiers idx !! groupName = Some id ->
  let idx' := addToGroup tokenize idx groupName sourceCode in
  let fps := fingerprints idx (tokenize sourceCode) in
  identifiers idx' = identifiers idx
  /\ names idx' = names idx
  /\ (forall d, forward idx' d
                = if decide (d = id) then forward idx id ∪ list_to_set fps
                  else forward idx d)
  /\ (forall F, inverted idx' F
                = if decide (F ∈ fps) then inverted idx F ∪ {[id]}
                  else inverted idx F).
Proof.
  intros Hid idx' fps. subst idx'.
  rewrite addToGroup_unfold. unfold resolve. rewrite Hid. cbn [fst snd].
  fold fps.
  destruct (record_hash_fold_fields id fps idx) as (Hi & Hn & _ & _).
  split; [exact Hi|]. split; [exact Hn|]. split.
  - intros d. apply set_eq; intros F. rewrite elem_of_forward_fold.
    destruct (decide (d = id)) as [->|Hne].
    + rewrite elem_of_union, elem_of_list_to_set. naive_solver.
    + naive_solver.
  - intros F. apply set_eq; intros d. rewrite elem_of_inverted_fold.
    destruct (decide (F ∈ fps)) as [Hin|Hnin].
    + rewrite elem_of_union, elem_of_singleton. naive_solver.
    + naive_solver.
Qed.

End IndexProperties.

(** ** Indexes built by addToGroup *)

Lemma RollingHash_call_range rh tok :
  0 <= (RollingHash_call rh tok).1 < mod_.
Proof. cbn. apply Z.mod_pos_bound. unfold mod_; lia. Qed.

Lemma RollingHash_run_range rh tokens v :
  v ∈ RollingHash_run rh tokens -> 0 <= v < mod_.
Proof.
  revert rh; induction tokens as [|tok tokens IH]; intros rh; cbn [RollingHash_run].
  - intros Hin; inversion Hin.
  - pose proof (RollingHash_call_range rh tok) as Hr.
    destruct (RollingHash_call rh tok) as [x rh'].
    intros [->|Hin]%elem_of_cons; [exact Hr|]. by apply (IH rh').
Qed.

Lemma RollingHash_run_length rh tokens :
  length (RollingHash_run rh tokens) = length tokens.
Proof.
  revert rh; induction tokens as [|tok tokens IH]; intros rh; cbn [RollingHash_run].
  - reflexivity.
  - destruct (RollingHash_call rh tok) as [x rh']. cbn. by rewrite IH.
Qed.

Lemma fingerprints_range idx tokens v :
  1 <= w idx < 2 ^ 32 -> v ∈ fingerprints idx tokens -> 0 <= v < mod_.
Proof.
  intros Hw Hin. apply winnowFilter_subset in Hin; [|assumption].
  by apply RollingHash_run_range in Hin.
Qed.

Lemma fingerprints_length idx tokens :
  (length (fingerprints idx tokens) <= length tokens)%nat.
Proof.
  unfold fingerprints. etransitivity; [apply winnowFilter_length|].
  unfold rollingHashes. by rewrite RollingHash_run_length.
Qed.

Lemma index_fold_is_Some identifier hashes idx F :
  is_Some (index (foldl (record_hash identifier) idx hashes) !! F)
  <-> is_Some (index idx !! F) \/ F ∈ hashes.
Proof.
  revert idx; induction hashes as [|h hashes IH]; intros idx; cbn [foldl].
  - split; [auto|]. intros [?|Hin]; [done|]. inversion Hin.
  - rewrite IH. cbn [record_hash index]. rewrite insert_into_eq.
    rewrite lookup_insert_is_Some', elem_of_cons. naive_solver.
Qed.

Lemma resolve_registered idx groupName :
  identifiers (resolve idx groupName).2 !! groupName = Some (resolve idx groupName).1.
Proof.
  unfold resolve. destruct (identifiers idx !! groupName) eqn:E; cbn; [done|].
  by rewrite lookup_insert_eq.
Qed.

Lemma resolve_identifiers_mono idx groupName n i :
  identifiers idx !! n = Some i ->
  identifiers (resolve idx groupName).2 !! n = Some i.
Proof.
  unfold resolve. destruct (identifiers idx !! groupName) eqn:E; cbn; [done|].
  intros Hn. rewrite lookup_insert_ne; [done|congruence].
Qed.

Lemma resolve_size idx groupName :
  (size (identifiers idx) <= size (identifiers (resolve idx groupName).2))%nat.
Proof.
  unfold resolve. destruct (identifiers idx !! groupName) eqn:E; cbn; [done|].
  rewrite map_size_insert_None by done. lia.
Qed.

Lemma IndexInv_resolve idx groupName :
  IndexInv idx -> IndexInv (resolve idx groupName).2.
Proof.
  intros [Hine Hgne Hfp Hid Hnm Hkn].
  destruct (resolve_maps idx groupName) as (Hi & Hg & _ & _).
  split; rewrite ?Hi, ?Hg; try assumption.
  - unfold resolve. destruct (identifiers idx !! groupName) eqn:E; cbn; [done|].
    intros n i [[-> <-]|[_ Hn]]%lookup_insert_Some;
      [apply wrap16_range|by eapply Hid].
  - unfold resolve. destruct (identifiers idx !! groupName) eqn:E; cbn; [done|].
    intros n i [[-> <-]|[_ Hn]]%lookup_insert_Some.
    + rewrite lookup_insert_eq. by eexists.
    + rewrite lookup_insert_is_Some'. right. by eapply Hnm.
  - intros F d. rewrite resolve_inverted. intros Hd.
    destruct (Hkn F d Hd) as [n Hn]. exists n.
    by apply resolve_identifiers_mono.
Qed.

Lemma IndexInv_record identifier hashes idx :
  (exists n, identifiers idx !! n = Some identifier) ->
  (forall v, v ∈ hashes -> 0 <= v < mod_) ->
  IndexInv idx -> IndexInv (foldl (record_hash identifier) idx hashes).
Proof.
  intros Hreg Hrange [Hine Hgne Hfp Hid Hnm Hkn].
  destruct (record_hash_fold_fields identifier hashes idx) as (Hi & Hn & _ & _).
  destruct (nonempty_entries_fold identifier hashes idx Hine Hgne) as [Hine' Hgne'].
  split; rewrite ?Hi, ?Hn; try assumption.
  - intros F [HF|HF]%index_fold_is_Some; auto.
  - intros F d [Hd|[-> _]]%elem_of_inverted_fold; eauto.
Qed.

Section BuiltIndexes.

Variable tokenize : string -> list Z.

Lemma addToGroup_params idx groupName sourceCode :
  k (addToGroup tokenize idx groupName sourceCode) = k idx
  /\ w (addToGroup tokenize idx groupName sourceCode) = w idx.
Proof.
  rewrite addToGroup_unfold.
  destruct (record_hash_fold_fields (resolve idx groupName).1
              (fingerprints idx (tokenize sourceCode)) (resolve idx groupName).2)
    as (_ & _ & -> & ->).
  destruct (resolve_maps idx groupName) as (_ & _ & -> & ->). done.
Qed.

Lemma addToGroup_identifiers idx groupName sourceCode :
  identifiers (addToGroup tokenize idx groupName sourceCode)
  = identifiers (resolve idx groupName).2
  /\ names (addToGroup tokenize idx groupName sourceCode)
     = names (resolve idx groupName).2.
Proof.
  rewrite addToGroup_unfold.
  destruct (record_hash_fold_fields (resolve idx groupName).1
              (fingerprints idx (tokenize sourceCode)) (resolve idx groupName).2)
    as (-> & -> & _ & _). done.
Qed.

Lemma build_params kk ww calls :
  k (build tokenize kk ww calls) = kk /\ w (build tokenize kk ww calls) = ww.
Proof.
  induction calls as [|c calls IH] using rev_ind; [done|].
  rewrite build_snoc.
  destruct (addToGroup_params (build tokenize kk ww calls) c.1 c.2) as [-> ->].
  exact IH.
Qed.

Lemma IndexInv_addToGroup idx groupName sourceCode :
  1 <= w idx < 2 ^ 32 ->
  IndexInv idx -> IndexInv (addToGroup tokenize idx groupName sourceCode).
Proof.
  intros Hw Hinv. rewrite addToGroup_unfold. apply IndexInv_record.
  - exists groupName. apply resolve_registered.
  - intros v. by apply fingerprints_range.
  - by apply IndexInv_resolve.
Qed.

Lemma IndexInv_build kk ww calls :
  1 <= ww < 2 ^ 32 -> IndexInv (build tokenize kk ww calls).
Proof.
  intros Hw. induction calls as [|c calls IH] using rev_ind.
  - split; cbn; try (intros ? ?; rewrite lookup_empty; by intros ?).
    + intros F [? HF]. by rewrite lookup_empty in HF.
    + intros F d. unfold inverted. cbn. rewrite lookup_empty. set_solver.
  - rewrite build_snoc. apply IndexInv_addToGroup; [|exact IH].
    by rewrite (proj2 (build_params kk ww calls)).
Qed.

End BuiltIndexes.

(** ** The registry within the capacity of uint16_t *)

Lemma Registry_resolve idx groupName :
  (identifiers idx !! groupName = None -> Z.of_nat (size (identifiers idx)) < 2 ^ 16) ->
  Registry idx -> Registry (resolve idx groupName).2.
Proof.
  intros Hcap [Hbij Hdense]. unfold resolve.
  destruct (identifiers idx !! groupName) as [id|] eqn:E; cbn [snd]; [by split|].
  specialize (Hcap eq_refl).
  rewrite wrap16_small by lia.
  assert (Hfresh : names idx !! Z.of_nat (size (identifiers idx)) = None).
  { destruct (names idx !! Z.of_nat (size (identifiers idx))) as [n|] eqn:En; [|done].
    apply Hbij, Hdense in En. lia. }
  split; cbn [identifiers names].
  - intros n i. rewrite !lookup_insert_Some, <- Hbij. split.
    + intros [[-> <-]|[Hne Hn]]; [by left|]. right. split; [|done].
      intros <-. apply Hdense in Hn. lia.
    + intros [[<- ->]|[Hne Hn]]; [by left|]. right. split; [|done].
      intros <-. congruence.
  - intros n i. rewrite map_size_insert_None by done.
    intros [[-> <-]|[_ Hn]]%lookup_insert_Some; [lia|].
    apply Hdense in Hn. lia.
Qed.

Section Capacity.

Variable tokenize : string -> list Z.

Lemma Registry_addToGroup idx groupName sourceCode :
  Z.of_nat (size (identifiers (addToGroup tokenize idx groupName sourceCode))) <= 2 ^ 16 ->
  Registry idx -> Registry (addToGroup tokenize idx groupName sourceCode).
Proof.
  destruct (addToGroup_identifiers tokenize idx groupName sourceCode) as [Hi Hn].
  rewrite Hi. intros Hsize Hreg.
  pose proof (Registry_resolve idx groupName) as Hres.
  assert (Hr : Registry (resolve idx groupName).2).
  { apply Hres; [|done]. intros Hnew. revert Hsize. unfold resolve. rewrite Hnew.
    cbn. rewrite map_size_insert_None by done. lia. }
  destruct Hr as [Hb Hd]. split; rewrite ?Hi, ?Hn; assumption.
Qed.

Lemma Registry_build kk ww calls :
  Z.of_nat (size (identifiers (build tokenize kk ww calls))) <= 2 ^ 16 ->
  Registry (build tokenize kk ww calls).
Proof.
  induction calls as [|c calls IH] using rev_ind.
  - intros _. split; cbn.
    + intros n i. by rewrite !lookup_empty.
    + intros n i. by rewrite lookup_empty.
  - rewrite build_snoc. intros Hsize.
    apply Registry_addToGroup; [done|]. apply IH.
    rewrite (proj1 (addToGroup_identifiers tokenize _ c.1 c.2)) in Hsize.
    pose proof (resolve_size (build tokenize kk ww calls) c.1). lia.
Qed.

Lemma mirror_build kk ww calls : mirror (build tokenize kk ww calls).
Proof.
  induction calls as [|c calls IH] using rev_ind.
  - intros d F. unfold inverted, forward. cbn. by rewrite !lookup_empty.
  - rewrite build_snoc. by apply mirror_addToGroup.
Qed.

(** C6.  After any sequence of [addToGroup] calls on an empty index the
    forward sets and the inverted map mirror each other: document [d] is
    in the inverted-map entry of fingerprint [F] exactly when [F] is in the
    forward set of [d]. *)
Theorem index_consistency (kk ww : Z) (calls : list (string * string)) (d F : Z) :
  d ∈ inverted (build tokenize kk ww calls) F
  <-> F ∈ forward (build tokenize kk ww calls) d.
Proof. apply mirror_build. Qed.

End Capacity.

(** ** Loops over lists of JSON values *)

Lemma foldlM_fmap_Some {A C} (f : A -> json -> option A) (f' : A -> C -> A)
    (g : C -> json) (l : list C) (a : A) :
  (forall a x, x ∈ l -> f a (g x) = Some (f' a x)) ->
  foldlM f a (g <$> l) = Some (foldl f' a l).
Proof.
  revert a; induction l as [|x l IH]; intros a Hf; cbn; [done|].
  rewrite Hf by left. cbn. apply IH. intros a' y Hy. apply Hf. by right.
Qed.

Lemma foldl_pair_split {A B C} (f : A -> C -> A) (g : B -> C -> B) l a b :
  foldl (fun acc x => (f acc.1 x, g acc.2 x)) (a, b) l = (foldl f a l, foldl g b l).
Proof. revert a b; induction l as [|x l IH]; intros a b; cbn; [done|apply IH]. Qed.

(** Inserting the entries of a list without repeated keys: the result
    holds exactly the entries of the list, over what was there before. *)
Lemma foldl_insert_lookup `{Countable K} {V} (l : list (K * V)) (m0 : gmap K V) key v :
  NoDup (l.*1) ->
  foldl (fun m e => <[e.1 := e.2]> m) m0 l !! key = Some v
  <-> (key, v) ∈ l \/ ((key ∉ l.*1) /\ m0 !! key = Some v).
Proof.
  revert m0; induction l as [|[k0 v0] l IH]; intros m0 Hnd; cbn [foldl fmap list_fmap fst snd].
  - split; [intros Hm; right; split; [apply not_elem_of_nil|done]|].
    intros [Hin|[_ Hm]]; [inversion Hin|done].
  - apply NoDup_cons in Hnd as [Hk0 Hnd]. rewrite (IH _ Hnd).
    rewrite elem_of_cons, not_elem_of_cons.
    destruct (decide (key = k0)) as [->|Hne].
    + rewrite lookup_insert_eq. split.
      * intros [Hin|[_ [= ->]]]; [|by left; left].
        exfalso. apply Hk0. apply list_elem_of_fmap. by exists (k0, v).
      * intros [[[= ->]|Hin]|[[Hc _] _]]; [by right|by left|done].
    + rewrite lookup_insert_ne by done. split.
      * intros [Hin|[Hk Hm]]; [by left; right|by right].
      * intros [[[= -> _]|Hin]|[[_ Hk] Hm]]; [done|by left|by right].
Qed.

Lemma foldl_insert_enumeration `{Countable K} {V} (m : gmap K V) (l : list (K * V)) :
  l ≡ₚ map_to_list m ->
  foldl (fun acc e => <[e.1 := e.2]> acc) ∅ l = m.
Proof.
  intros Hl. apply map_eq; intros key. apply option_eq; intros v.
  rewrite foldl_insert_lookup.
  - rewrite Hl, elem_of_map_to_list, lookup_empty. naive_solver.
  - rewrite Hl. apply NoDup_fst_map_to_list.
Qed.

(** ** Loading what serialize wrote *)

Lemma elem_of_set_iter (s : gset Z) (d : Z) : d ∈ set_iter s <-> d ∈ s.
Proof. unfold set_iter. by rewrite merge_sort_Permutation, elem_of_elements. Qed.

Lemma enter_fold_spec F ds acc :
  let acc' := foldl (enter F) acc ds in
  (forall F' y, y ∈ default ∅ (acc'.1 !! F')
                <-> y ∈ default ∅ (acc.1 !! F') \/ (F' = F /\ y ∈ ds))
  /\ (forall d x, x ∈ default ∅ (acc'.2 !! d)
                  <-> x ∈ default ∅ (acc.2 !! d) \/ (x = F /\ d ∈ ds))
  /\ (nonempty_entries acc.1 -> nonempty_entries acc'.1)
  /\ (nonempty_entries acc.2 -> nonempty_entries acc'.2).
Proof.
  revert acc; induction ds as [|d0 ds IH]; intros acc; cbn [foldl].
  - repeat split; try done; try (intros [?|[_ Hin]]; [done|inversion Hin]); auto.
  - destruct (IH (enter F acc d0)) as (H1 & H2 & H3 & H4).
    cbn [enter fst snd] in *.
    split; [|split; [|split]].
    + intros F' y. rewrite H1, elem_of_insert_into, elem_of_cons. naive_solver.
    + intros d x. rewrite H2, elem_of_insert_into, elem_of_cons. naive_solver.
    + intros Hne. by apply H3, nonempty_entries_insert_into.
    + intros Hne. by apply H4, nonempty_entries_insert_into.
Qed.

Lemma enter_all_fold_spec (l : list (Z * gset Z)) acc :
  let acc' := foldl enter_all acc l in
  (forall F y, y ∈ default ∅ (acc'.1 !! F)
               <-> y ∈ default ∅ (acc.1 !! F) \/ exists s, (F, s) ∈ l /\ y ∈ s)
  /\ (forall d x, x ∈ default ∅ (acc'.2 !! d)
                  <-> x ∈ default ∅ (acc.2 !! d) \/ exists s, (x, s) ∈ l /\ d ∈ s)
  /\ (nonempty_entries acc.1 -> nonempty_entries acc'.1)
  /\ (nonempty_entries acc.2 -> nonempty_entries acc'.2).
Proof.
  revert acc; induction l as [|[F0 s0] l IH]; intros acc; cbn [foldl].
  - repeat split; try done; auto; (intros [?|(s & Hin & _)]; [done|inversion Hin]).
  - destruct (IH (enter_all acc (F0, s0))) as (H1 & H2 & H3 & H4).
    destruct (enter_fold_spec F0 (set_iter s0) acc) as (E1 & E2 & E3 & E4).
    unfold enter_all in *. cbn [fst snd] in *.
    split; [|split; [|split]].
    + intros F y. rewrite H1, E1, elem_of_set_iter. split.
      * intros [[?|[-> ?]]|(s & Hin & Hy)]; [by left| |].
        -- right. exists s0. split; [by left|done].
        -- right. exists s. split; [by right|done].
      * intros [?|(s & [[= -> ->]|Hin]%elem_of_cons & Hy)];
          [by left; left|by left; right|].
        right. by exists s.
    + intros d x. rewrite H2, E2, elem_of_set_iter. split.
      * intros [[?|[-> ?]]|(s & Hin & Hy)]; [by left| |].
        -- right. exists s0. split; [by left|done].
        -- right. exists s. split; [by right|done].
      * intros [?|(s & [[= -> ->]|Hin]%elem_of_cons & Hy)];
          [by left; left|by left; right|].
        right. by exists s.
    + intros Hne. by apply H3, E3.
    + intros Hne. by apply H4, E4.
Qed.

Lemma as_int64_small z : 0 <= z < 2 ^ 32 -> as_int64 (JNumber z) = Some z.
Proof.
  intros Hz. cbn.
  destruct (- 2 ^ 63 <=? z) eqn:E1; [|apply Z.leb_gt in E1; lia].
  destruct (z <? 2 ^ 63) eqn:E2; [done|apply Z.ltb_ge in E2; lia].
Qed.

Lemma load_ids_written F (ds : list Z) acc :
  (forall d, d ∈ ds -> 0 <= d < 2 ^ 16) ->
  foldlM (load_id F) acc (JNumber <$> ds) = Some (foldl (enter F) acc ds).
Proof.
  intros Hds. apply foldlM_fmap_Some. intros a d Hd.
  unfold load_id. rewrite as_int64_small by (specialize (Hds d Hd); lia).
  cbn. rewrite wrap16_small by auto. reflexivity.
Qed.

Lemma load_entries_written (l : list (Z * gset Z)) acc :
  (forall F s, (F, s) ∈ l -> 0 <= F < 2 ^ 32) ->
  (forall F s d, (F, s) ∈ l -> d ∈ s -> 0 <= d < 2 ^ 16) ->
  foldlM load_entry acc
    ((fun e => JArray [JNumber e.1; JArray (JNumber <$> set_iter e.2)]) <$> l)
  = Some (foldl enter_all acc l).
Proof.
  intros HF Hd. apply foldlM_fmap_Some. intros a [F s] Hin.
  unfold load_entry. cbn [as_array elt lookup list_lookup fst snd mbind option_bind].
  rewrite as_int64_small by eauto. cbn.
  rewrite wrap32_small by eauto.
  apply load_ids_written. intros d Hds. apply elem_of_set_iter in Hds. eauto.
Qed.

Lemma load_identifiers_written (l : list (string * Z)) acc :
  (forall n i, (n, i) ∈ l -> 0 <= i < 2 ^ 16) ->
  foldlM load_identifier acc ((fun e => JArray [JString e.1; JNumber e.2]) <$> l)
  = Some (foldl (fun acc e => (<[e.1 := e.2]> acc.1, <[e.2 := e.1]> acc.2)) acc l).
Proof.
  intros Hl. apply foldlM_fmap_Some. intros a [n i] Hin.
  unfold load_identifier. cbn [as_array elt lookup list_lookup fst snd mbind option_bind as_string].
  rewrite as_int64_small by (specialize (Hl n i Hin); lia). cbn.
  rewrite wrap16_small by eauto. reflexivity.
Qed.

Lemma serialize_fields (a b c d : json) :
  let o := [("k", a); ("w", b); ("index", c); ("identifiers", d)]%string in
  at_key o "k" = Some a /\ at_key o "w" = Some b
  /\ at_key o "index" = Some c /\ at_key o "identifiers" = Some d.
Proof. repeat split; reflexivity. Qed.

Lemma names_rebuilt (ids : gmap string Z) (nms : gmap Z string) (l : list (string * Z)) :
  l ≡ₚ map_to_list ids ->
  (forall n i, ids !! n = Some i <-> nms !! i = Some n) ->
  foldl (fun (m : gmap Z string) (e : string * Z) => <[e.2 := e.1]> m) ∅ l = nms.
Proof.
  intros Hl Hbij.
  transitivity (foldl (fun (m : gmap Z string) e => <[e.1 := e.2]> m) ∅
                  ((fun e : string * Z => (e.2, e.1)) <$> l)).
  { by rewrite foldl_fmap. }
  apply map_eq; intros i. apply option_eq; intros n.
  rewrite foldl_insert_lookup.
  - rewrite lookup_empty, <- Hbij, <- elem_of_map_to_list, <- Hl, list_elem_of_fmap.
    split.
    + intros [([n' i'] & [= -> ->] & Hin)|[_ [=]]]. done.
    + intros Hin. left. by exists (n, i).
  - rewrite <- list_fmap_compose.
    apply NoDup_fmap_2_strong; [|rewrite Hl; apply NoDup_map_to_list].
    intros [n1 i1] [n2 i2] H1 H2. rewrite Hl in H1, H2.
    apply elem_of_map_to_list in H1, H2.
    cbn. intros <-. f_equal.
    apply Hbij in H1, H2. congruence.
Qed.

Lemma maps_rebuilt (idx : Index) (l : list (Z * gset Z)) :
  l ≡ₚ map_to_list (index idx) ->
  mirror idx -> nonempty_entries (index idx) -> nonempty_entries (groups idx) ->
  foldl enter_all (∅, ∅) l = (index idx, groups idx).
Proof.
  intros Hl Hmir Hine Hgne.
  destruct (enter_all_fold_spec l (∅, ∅)) as (H1 & H2 & H3 & H4).
  cbv zeta in *. cbn [fst snd] in *.
  assert (Hempty : nonempty_entries (∅ : gmap Z (gset Z))).
  { intros key s. by rewrite lookup_empty. }
  assert (Hin : forall F d, (exists s, (F, s) ∈ l /\ d ∈ s) <-> d ∈ inverted idx F).
  { intros F d. unfold inverted. split.
    - intros (s & Hs & Hd). rewrite Hl in Hs.
      apply elem_of_map_to_list in Hs. by rewrite Hs.
    - destruct (index idx !! F) as [s|] eqn:E; cbn; [|set_solver].
      intros Hd. exists s. by rewrite Hl, elem_of_map_to_list. }
  destruct (foldl enter_all (∅, ∅) l) as [ix gr].
  cbn [fst snd] in *. f_equal.
  - apply nonempty_entries_ext; [by apply H3|done|].
    intros F d. rewrite H1, lookup_empty, Hin. unfold inverted. set_solver.
  - apply nonempty_entries_ext; [by apply H4|done|].
    intros d F. rewrite H2, lookup_empty, Hin, (Hmir d F). unfold forward. set_solver.
Qed.

(** Whatever the order in which the two maps are enumerated, the document
    written for a consistent index within capacity loads back to the very
    same index. *)
Lemma roundtrip_state (idx : Index) (ids : list (string * Z)) (ix : list (Z * gset Z)) :
  ids ≡ₚ map_to_list (identifiers idx) -> ix ≡ₚ map_to_list (index idx) ->
  mirror idx -> IndexInv idx -> Registry idx ->
  0 <= k idx < 2 ^ 16 -> 0 <= w idx < 2 ^ 16 ->
  deserialize (snapshot idx ids ix) = Some idx.
Proof.
  intros Hids Hix Hmir [Hine Hgne Hfp Hid Hnm Hkn] [Hbij Hdense] Hk Hw.
  unfold deserialize, snapshot.
  cbn [as_object mbind option_bind].
  match goal with |- context [at_key [_; _; (_, ?c); (_, ?d)] _] =>
    destruct (serialize_fields (JNumber (k idx)) (JNumber (w idx)) c d)
      as (Ek & Ew & Ei & En)
  end.
  cbv zeta in Ek, Ew, Ei, En. rewrite Ek, Ew, Ei, En. clear Ek Ew Ei En.
  cbn [as_array mbind option_bind].
  rewrite !as_int64_small by lia. cbn [mbind option_bind].
  rewrite load_identifiers_written.
  2:{ intros n i Hin. rewrite Hids in Hin. apply elem_of_map_to_list in Hin. eauto. }
  cbn [mbind option_bind].
  rewrite load_entries_written.
  2:{ intros F s Hin. rewrite Hix in Hin. apply elem_of_map_to_list in Hin.
      specialize (Hfp F ltac:(eauto)). unfold mod_ in Hfp. lia. }
  2:{ intros F s d Hin Hd. rewrite Hix in Hin. apply elem_of_map_to_list in Hin.
      destruct (Hkn F d) as [n Hn]; [unfold inverted; by rewrite Hin|]. eauto. }
  cbn [mbind option_bind].
  rewrite !wrap16_small by lia.
  rewrite (foldl_pair_split (fun (m : gmap string Z) (e : string * Z) => <[e.1 := e.2]> m)
             (fun (m : gmap Z string) (e : string * Z) => <[e.2 := e.1]> m)).
  cbn [fst snd].
  rewrite (foldl_insert_enumeration _ _ Hids).
  rewrite (names_rebuilt _ _ _ Hids Hbij).
  rewrite (maps_rebuilt idx ix Hix Hmir Hine Hgne). cbn [fst snd].
  by destruct idx.
Qed.

Section RoundTrip.

Variable tokenize : string -> list Z.

Lemma roundtrip_build (kk ww : Z) (calls : list (string * string))
    (ids : list (string * Z)) (ix : list (Z * gset Z)) :
  1 <= kk < 2 ^ 16 -> 1 <= ww < 2 ^ 16 ->
  Z.of_nat (size (identifiers (build tokenize kk ww calls))) <= 2 ^ 16 ->
  ids ≡ₚ map_to_list (identifiers (build tokenize kk ww calls)) ->
  ix ≡ₚ map_to_list (index (build tokenize kk ww calls)) ->
  deserialize (snapshot (build tokenize kk ww calls) ids ix)
  = Some (build tokenize kk ww calls).
Proof.
  intros Hk Hw Hcap Hids Hix.
  destruct (build_params tokenize kk ww calls) as [Ek Ew].
  apply roundtrip_state; [done|done| | | | |].
  - apply mirror_build.
  - apply IndexInv_build. lia.
  - by apply Registry_build.
  - rewrite Ek. lia.
  - rewrite Ew. lia.
Qed.

(** C7.  Take an index built by [addToGroup] calls with window lengths
    [k, w >= 1] that holds at most [2 ^ 16] names, the capacity of the
    16-bit document identifier.  Loading the document that [serialize]
    wrote succeeds, in whatever orders [ids] and [ix] the two hash maps
    were enumerated, and the loaded index answers every [getPair] query on
    registered names and every [matchTokens] query exactly as the original
    does. *)
Theorem serialize_roundtrip (kk ww : Z) (calls : list (string * string))
    (ids : list (string * Z)) (ix : list (Z * gset Z)) :
  1 <= kk < 2 ^ 16 -> 1 <= ww < 2 ^ 16 ->
  Z.of_nat (size (identifiers (build tokenize kk ww calls))) <= 2 ^ 16 ->
  let idx := build tokenize kk ww calls in
  ids ≡ₚ map_to_list (identifiers idx) -> ix ≡ₚ map_to_list (index idx) ->
  exists idx',
    deserialize (snapshot idx ids ix) = Some idx'
    /\ (forall a b, is_Some (identifiers idx !! a) -> is_Some (identifiers idx !! b) ->
                    (getPair idx' a b).1 = (getPair idx a b).1)
    /\ (forall tokens, matchTokens idx' tokens = matchTokens idx tokens).
Proof.
  intros Hk Hw Hcap idx Hids Hix. exists idx.
  split; [by apply roundtrip_build|]. split; reflexivity.
Qed.

End RoundTrip.

Lemma mapM_fmap_Some {A B C} (f : A -> option B) (g : C -> A) (h : C -> B) (l : list C) :
  (forall x, x ∈ l -> f (g x) = Some (h x)) ->
  mapM f (g <$> l) = Some (h <$> l).
Proof.
  induction l as [|x l IH]; intros Hf; cbn; [done|].
  rewrite Hf by left. cbn. rewrite IH; [done|].
  intros y Hy. apply Hf. by right.
Qed.

Section StoredFingerprints.

Variable tokenize : string -> list Z.

(** C10.  Every value returned by the rolling hash lies below the modulus
    33554393, itself below [2 ^ 25].  Hence, for window lengths
    [k, w >= 1], every fingerprint that [addToGroup] calls store in the
    index, in the inverted map or in a forward set, fits in 32 bits, and
    every fingerprint in the snapshot that [serialize] writes for such an
    index is read back as it is and left unchanged by the narrowing to
    [uint32_t]. *)
Theorem fingerprints_fit_uint32 (kk ww : Z) (calls : list (string * string)) :
  1 <= kk < 2 ^ 16 -> 1 <= ww < 2 ^ 16 ->
  let idx := build tokenize kk ww calls in
  (forall rh tok, 0 <= (RollingHash_call rh tok).1 < 33554393)
  /\ 33554393 < 2 ^ 25
  /\ (forall F, is_Some (index idx !! F) -> 0 <= F < 2 ^ 32)
  /\ (forall d F, F ∈ forward idx d -> 0 <= F < 2 ^ 32)
  /\ exists hs, snapshot_hashes (serialize idx) = Some hs
                /\ Forall (fun h => wrap32 h = h) hs.
Proof.
  intros Hk Hw idx.
  pose proof (IndexInv_build tokenize kk ww calls ltac:(lia)) as Hinv.
  fold idx in Hinv.
  assert (Hrange : forall F, is_Some (index idx !! F) -> 0 <= F < 2 ^ 32).
  { intros F HF. apply (ii_fp_range _ Hinv) in HF. unfold mod_ in HF. lia. }
  split; [exact RollingHash_call_range|]. split; [lia|]. split; [exact Hrange|].
  split.
  - intros d F HF. apply Hrange.
    apply (mirror_build tokenize kk ww calls) in HF. fold idx in HF.
    unfold inverted in HF. destruct (index idx !! F); [done|set_solver].
  - exists ((map_to_list (index idx)).*1). split.
    + unfold snapshot_hashes, serialize, snapshot. cbn [as_object mbind option_bind].
      match goal with |- context [at_key [_; _; (_, ?c); (_, ?d)] _] =>
        destruct (serialize_fields (JNumber (k idx)) (JNumber (w idx)) c d)
          as (_ & _ & Ei & _)
      end.
      cbv zeta in Ei. rewrite Ei. cbn [as_array mbind option_bind].
      apply mapM_fmap_Some. intros [F s] Hin%elem_of_map_to_list.
      cbn [as_array elt lookup list_lookup mbind option_bind fst].
      apply as_int64_small, Hrange. eauto.
    + apply Forall_forall. intros F [[F' s] [-> Hin%elem_of_map_to_list]]%list_elem_of_fmap.
      apply wrap32_small, Hrange. eauto.
Qed.

End StoredFingerprints.

(** ** matchTokens *)

Lemma sharedHashes0_is_Some (l : list (string * Z)) (sh : gmap Z Z) (i : Z) :
  is_Some (foldl (fun sh e => <[e.2 := 0]> sh) sh l !! i)
  <-> is_Some (sh !! i) \/ exists n, (n, i) ∈ l.
Proof.
  revert sh; induction l as [|[n0 i0] l IH]; intros sh; cbn [foldl snd].
  - split; [auto|]. intros [?|[n Hin]]; [done|inversion Hin].
  - rewrite IH, lookup_insert_is_Some'. split.
    + intros [[->|?]|[n Hin]]; [right; exists n0; by left|by left|].
      right. exists n. by right.
    + intros [?|[n [[= -> ->]|Hin]%elem_of_cons]];
        [by left; right|by left; left|].
      right. by exists n.
Qed.

Lemma bump_fold_is_Some (ds : list Z) (sh : gmap Z Z) (i : Z) :
  is_Some (foldl bump sh ds !! i) <-> is_Some (sh !! i) \/ i ∈ ds.
Proof.
  revert sh; induction ds as [|d ds IH]; intros sh; cbn [foldl].
  - split; [auto|]. intros [?|Hin]; [done|inversion Hin].
  - rewrite IH. unfold bump. rewrite lookup_insert_is_Some', elem_of_cons.
    naive_solver.
Qed.

Lemma match_hash_fold_is_Some idx (hs : list Z) (acc : Z * gmap Z Z) (i : Z) :
  is_Some ((foldl (match_hash idx) acc hs).2 !! i)
  <-> is_Some (acc.2 !! i) \/ exists h, h ∈ hs /\ i ∈ inverted idx h.
Proof.
  revert acc; induction hs as [|h hs IH]; intros acc; cbn [foldl].
  - split; [auto|]. intros [?|(h & Hin & _)]; [done|inversion Hin].
  - rewrite IH. unfold match_hash. cbn [snd].
    assert (Hstep : is_Some (match index idx !! h with
                             | Some ids => foldl bump acc.2 (set_iter ids)
                             | None => acc.2
                             end !! i)
                    <-> is_Some (acc.2 !! i) \/ i ∈ inverted idx h).
    { unfold inverted. destruct (index idx !! h) as [ids|]; cbn [default].
      - by rewrite bump_fold_is_Some, elem_of_set_iter.
      - set_solver. }
    rewrite Hstep. split.
    + intros [[?|?]|(h' & Hin & Hi)]; [by left| |].
      * right. exists h. split; [by left|done].
      * right. exists h'. split; [by right|done].
    + intros [?|(h' & [->|Hin]%elem_of_cons & Hi)];
        [by left; left|by left; right|].
      right. by exists h'.
Qed.

Lemma match_hash_fold_total idx (hs : list Z) (acc : Z * gmap Z Z) :
  0 <= acc.1 < 2 ^ 32 ->
  (foldl (match_hash idx) acc hs).1 = wrap32 (acc.1 + Z.of_nat (length hs)).
Proof.
  revert acc; induction hs as [|h hs IH]; intros acc Hacc; cbn [foldl length].
  - rewrite Z.add_0_r. symmetry. by apply wrap32_small.
  - rewrite IH; cbn [match_hash fst].
    + unfold wrap32. rewrite Z.add_mod_idemp_l by lia. f_equal. lia.
    + unfold wrap32. apply Z.mod_pos_bound. lia.
Qed.


Lemma well_formed_build (tokenize : string -> list Z) kk ww calls :
  1 <= ww < 2 ^ 32 ->
  Z.of_nat (size (identifiers (build tokenize kk ww calls))) <= 2 ^ 16 ->
  well_formed (build tokenize kk ww calls).
Proof.
  intros Hw Hcap.
  pose proof (IndexInv_build tokenize kk ww calls Hw) as Hinv.
  pose proof (Registry_build tokenize kk ww calls Hcap) as Hreg.
  split; [apply (rg_names _ Hreg)|].
  intros F d Hd. destruct (ii_known _ Hinv F d Hd) as [n Hn].
  exact (ii_named _ Hinv n d Hn).
Qed.

(** ** getPair *)

(** When both names are registered and both documents own a forward set,
    the four subscripts find what they look for and nothing is inserted. *)
Lemma getPair_frame (idx : Index) (a b : string) (x y : Z) :
  identifiers idx !! a = Some x -> identifiers idx !! b = Some y ->
  is_Some (groups idx !! x) -> is_Some (groups idx !! y) ->
  (getPair idx a b).2 = idx.
Proof.
  intros Ha Hb [A HA] [B HB]. unfold getPair, subscript.
  rewrite Ha, Hb, HA, HB. by destruct idx.
Qed.

(** C3.  A name that was never registered does not make [getPair] fail:
    the subscript [identifiers[a]] inserts the name with identifier 0 and
    the call returns the counts of document 0.  On the empty index
    [Index(3, 3)] the query for ["a"] and ["b"] returns the pair with all
    counts 0; on the example index the query for the unknown name
    ["ghost"] returns the counts of ["a.js"], which owns identifier 0. *)
Theorem getPair_unregistered_name :
  (getPair (Index_new 3 3) "a" "b").1 = mkPair "a" "b" 0 0 0
  /\ identifiers example_index !! "ghost"%string = None
  /\ (getPair example_index "ghost" "a.js").1 = mkPair "ghost" "a.js" 14 14 14
  /\ (getPair example_index "a.js" "a.js").1 = mkPair "a.js" "a.js" 14 14 14.
Proof. repeat split; vm_compute; reflexivity. Qed.

(** C4.  [getPair] is not read-only.  Asked about unregistered names it
    adds them to [identifiers] under identifier 0 and adds an empty
    forward set for that identifier to [groups]; asked about a registered
    document without fingerprints (here one added from an empty text) it
    adds an empty forward set as well. *)
Theorem getPair_changes_index :
  identifiers (Index_new 3 3) !! "a"%string = None
  /\ groups (Index_new 3 3) !! 0 = None
  /\ identifiers (getPair (Index_new 3 3) "a" "b").2 !! "a"%string = Some 0
  /\ identifiers (getPair (Index_new 3 3) "a" "b").2 !! "b"%string = Some 0
  /\ groups (getPair (Index_new 3 3) "a" "b").2 !! 0 = Some ∅
  /\ identifiers example_index !! "ghost"%string = None
  /\ identifiers (getPair example_index "ghost" "a.js").2 !! "ghost"%string = Some 0
  /\ groups (build char_codes 3 3 [("empty.js", "")]%string) !! 0 = None
  /\ groups (getPair (build char_codes 3 3 [("empty.js", "")]%string)
               "empty.js" "empty.js").2 !! 0 = Some ∅.
Proof. repeat split; vm_compute; reflexivity. Qed.

(** ** Worked instances *)

Lemma serialize_roundtrip_witness :
  exists idx',
    deserialize (serialize example_index) = Some idx'
    /\ (forall a b, is_Some (identifiers example_index !! a) ->
                    is_Some (identifiers example_index !! b) ->
                    (getPair idx' a b).1 = (getPair example_index a b).1)
    /\ (forall tokens, matchTokens idx' tokens = matchTokens example_index tokens).
Proof.
  apply (serialize_roundtrip char_codes 3 3
           [("a.js", "function f() { return 1; }"); ("b.js", "var x = f();")]%string
           (map_to_list (identifiers example_index))
           (map_to_list (index example_index))).
  - lia.
  - lia.
  - vm_compute. discriminate.
  - reflexivity.
  - reflexivity.
Defined.



Lemma addToGroup_registered_witness :
  identifiers example_index !! "a.js"%string = Some 0
  /\ identifiers (addToGroup char_codes example_index "a.js" "var y;")
     = identifiers example_index.
Proof.
  assert (H : identifiers example_index !! "a.js"%string = Some 0)
    by (vm_compute; reflexivity).
  split; [exact H|].
  exact (proj1 (addToGroup_registered char_codes example_index "a.js" "var y;" 0 H)).
Defined.

Lemma fingerprints_fit_uint32_witness :
  exists hs, snapshot_hashes (serialize example_index) = Some hs
             /\ Forall (fun h => wrap32 h = h) hs.
Proof.
  apply (fingerprints_fit_uint32 char_codes 3 3
           [("a.js", "function f() { return 1; }"); ("b.js", "var x = f();")]%string);
    lia.
Defined.

(* ===================================================================== *)
(** * Further properties of the sources *)

(** ** modPow and tokenHash *)

(** X1.  With base and modulus below [2 ^ 32] and a 64-bit exponent,
    [modPow] returns [base ^ exp mod m] for every exponent of at least 1;
    for the exponent 0 the loop is skipped and the result is [base mod m],
    the same as for the exponent 1, not 1. *)
Theorem modPow_power (b e m : Z) :
  0 <= b < 2 ^ 32 -> 1 < m < 2 ^ 32 -> 0 <= e < 2 ^ 64 ->
  modPow b e m = b ^ Z.max e 1 mod m.
Proof.
  intros Hb Hm He. destruct (decide (e = 0)) as [->|Hne].
  - unfold modPow. cbn [modPow_loop pw_e Z.ltb Z.compare pw_b pw_y].
    rewrite Z.mul_1_r, wrap64_small by lia.
    change (Z.max 0 1) with 1. by rewrite Z.pow_1_r.
  - rewrite Z.max_l by lia. apply modPow_correct; lia.
Qed.

Lemma modPow_power_witness :
  modPow 3 5 1000 = 3 ^ Z.max 5 1 mod 1000 /\ modPow 7 0 10 = 7 ^ Z.max 0 1 mod 10.
Proof. split; apply modPow_power; lia. Defined.

Lemma tokenHash_snoc tok b :
  tokenHash (tok ++ [b])
  = wrap64 (wrap64 (tokenHash tok + char_value b) * 747287) mod mod_.
Proof. unfold tokenHash. by rewrite foldl_app. Qed.

(** A byte from 128 on is added as a negative character: the sum wraps
    at 64 bits and the result is not the residue of the unreduced hash. *)
Lemma tokenHash_signed_byte :
  tokenHash [200] = 16626385
  /\ foldl (fun h c => (h + c) * 747287) 0 [200] mod 33554393 = 15239828.
Proof. split; vm_compute; reflexivity. Qed.

(** X2.  On 7-bit characters, bytes from 0 to 127, which a signed and an
    unsigned [char] read alike, no intermediate value of [tokenHash]
    overflows: the result lies below the modulus and is the residue of
    the hash computed without any reduction,
    [(..((c1) * m + c2) * m .. + cn) * m] with [m = 747287]. *)
Theorem tokenHash_closed_form (tok : list Z) :
  Forall (fun b => 0 <= b < 128) tok ->
  tokenHash tok = foldl (fun h c => (h + c) * 747287) 0 tok mod 33554393
  /\ 0 <= tokenHash tok < 33554393.
Proof.
  induction tok as [|c tok IH] using rev_ind; intros Htok.
  - cbn. split; [reflexivity|lia].
  - apply Forall_app in Htok as [Htok Hc]. inversion Hc as [|? ? Hc0 _]; subst.
    destruct (IH Htok) as [Heq Hr].
    rewrite tokenHash_snoc, foldl_app. cbn [foldl].
    assert (Hcv : char_value c = c).
    { unfold char_value. destruct (c <? 128) eqn:E; [done|].
      apply Z.ltb_ge in E. lia. }
    rewrite Hcv.
    rewrite (wrap64_small (tokenHash tok + c)) by lia.
    rewrite wrap64_small by lia.
    split; [|apply Z.mod_pos_bound; unfold mod_; lia].
    rewrite Heq. unfold mod_.
    rewrite <- Z.mul_mod_idemp_l by lia.
    rewrite Z.add_mod_idemp_l by lia.
    rewrite Z.mul_mod_idemp_l by lia. reflexivity.
Qed.

Lemma tokenHash_closed_form_witness :
  tokenHash [105; 102] = foldl (fun h c => (h + c) * 747287) 0 [105; 102] mod 33554393
  /\ 0 <= tokenHash [105; 102] < 33554393.
Proof. apply tokenHash_closed_form. repeat constructor; lia. Defined.

(** ** The rolling hash as a polynomial of the window *)

Lemma poly_fold_shift (l : list Z) (a : Z) :
  foldl (fun h t => h * base + t) a l
  = a * base ^ Z.of_nat (length l) + foldl (fun h t => h * base + t) 0 l.
Proof.
  revert a; induction l as [|x l IH]; intros a; cbn [foldl length].
  - rewrite Z.pow_0_r. lia.
  - rewrite (IH (a * base + x)), (IH (0 * base + x)).
    rewrite Nat2Z.inj_succ, Z.pow_succ_r by lia. ring.
Qed.

Lemma poly_hash_cons (x : Z) (l : list Z) :
  poly_hash (x :: l) = x * base ^ Z.of_nat (length l) + poly_hash l.
Proof.
  unfold poly_hash. cbn [foldl]. rewrite poly_fold_shift. ring.
Qed.

Lemma poly_hash_snoc (l : list Z) (t : Z) :
  poly_hash (l ++ [t]) = poly_hash l * base + t.
Proof. unfold poly_hash. by rewrite foldl_app. Qed.

Lemma poly_hash_zeros (n : nat) : poly_hash (replicate n 0) = 0.
Proof.
  induction n as [|n IH]; [reflexivity|].
  cbn [replicate]. rewrite poly_hash_cons, IH. lia.
Qed.

Lemma last_window_length (kk : Z) (pre : list Z) :
  length (last_window kk pre) = Z.to_nat kk.
Proof.
  unfold last_window. rewrite length_drop, length_app, length_replicate. lia.
Qed.

Lemma last_window_head (kk : Z) (pre : list Z) :
  1 <= kk ->
  last_window kk pre !! 0%nat
  = Some (if Z.of_nat (length pre) <? kk then 0
          else pre !!! Z.to_nat (Z.of_nat (length pre) - kk)).
Proof.
  intros Hk. unfold last_window. rewrite lookup_drop, Nat.add_0_r.
  destruct (Z.of_nat (length pre) <? kk) eqn:Hlt.
  - apply Z.ltb_lt in Hlt. rewrite lookup_app_l by (rewrite length_replicate; lia).
    apply lookup_replicate_2. lia.
  - apply Z.ltb_ge in Hlt.
    rewrite lookup_app_r by (rewrite length_replicate; lia).
    rewrite length_replicate.
    replace (length pre - Z.to_nat kk)%nat
      with (Z.to_nat (Z.of_nat (length pre) - kk)) by lia.
    apply list_lookup_lookup_total_lt. lia.
Qed.

Lemma last_window_snoc (kk : Z) (pre : list Z) (tok : Z) :
  1 <= kk ->
  last_window kk (pre ++ [tok]) = drop 1 (last_window kk pre) ++ [tok].
Proof.
  intros Hk. unfold last_window.
  rewrite length_app, drop_drop. cbn [length].
  rewrite app_assoc, drop_app_le; [reflexivity|].
  rewrite length_app, length_replicate. lia.
Qed.

(** Without overflow the update is the formula of the source over [Z]. *)
Lemma RollingHash_call_value (kk : Z) pre rh tok :
  1 <= kk < 2 ^ 64 -> is_token tok -> RollingInv kk pre rh ->
  (RollingHash_call rh tok).1
  = (base * rh_hash rh + tok + rh_max_base rh * mem_at (rh_memory rh) (rh_i rh))
      mod mod_.
Proof.
  intros Hk Htok Hinv.
  pose proof (RollingInv_oldest kk pre rh ltac:(lia) Hinv) as Hold.
  destruct Hinv as [Ik Imb Ih Ii Il It Is Iz].
  destruct (max_base_new kk Hk) as [_ Hmbr]. rewrite <- Imb in Hmbr.
  pose proof (Z.mod_pos_bound (Z.of_nat (length pre)) kk ltac:(lia)) as Hi.
  assert (Hor : 0 <= mem_at (rh_memory rh) (rh_i rh) < 2 ^ 16).
  { unfold mem_at.
    assert (Hlt : (Z.to_nat (rh_i rh) < length (rh_memory rh))%nat) by lia.
    apply list_lookup_lookup_total_lt in Hlt.
    rewrite Forall_lookup in It. exact (It _ _ Hlt). }
  cbn [RollingHash_call fst]. unfold is_token in Htok. unfold mod_, base in *.
  rewrite wrap64_small by nia. reflexivity.
Qed.

(** The hash held after the tokens [pre] is the polynomial of the current
    window, reduced modulo [mod_]. *)
Lemma RollingHash_feed_poly (kk : Z) (pre : list Z) :
  1 <= kk < 2 ^ 64 -> Forall is_token pre ->
  rh_hash (RollingHash_feed (RollingHash_new kk) pre)
  = poly_hash (last_window kk pre) mod mod_.
Proof.
  intros Hk. induction pre as [|tok pre IH] using rev_ind; intros Hpre.
  - cbn [RollingHash_feed foldl RollingHash_new rh_hash].
    unfold last_window. cbn [length]. rewrite drop_0, app_nil_r, poly_hash_zeros.
    reflexivity.
  - apply Forall_app in Hpre as [Hpre Htok]. inversion Htok as [|? ? Htok0 _]; subst.
    specialize (IH Hpre).
    pose proof (RollingInv_feed kk pre Hk Hpre) as Hinv.
    rewrite RollingHash_feed_snoc.
    change (rh_hash (RollingHash_call ?r ?t).2) with (RollingHash_call r t).1.
    rewrite (RollingHash_call_value kk pre _ tok Hk Htok0 Hinv).
    rewrite (RollingInv_oldest kk pre _ ltac:(lia) Hinv).
    rewrite (ri_max_base _ _ _ Hinv), (proj1 (max_base_new kk Hk)), IH.
    pose proof (last_window_head kk pre ltac:(lia)) as Hhead.
    pose proof (last_window_length kk pre) as Hlen.
    rewrite (last_window_snoc kk pre tok) by lia.
    set (o := if Z.of_nat (length pre) <? kk then 0
              else pre !!! Z.to_nat (Z.of_nat (length pre) - kk)) in *.
    destruct (last_window kk pre) as [|o' T] eqn:EW; [discriminate Hhead|].
    cbn in Hhead. injection Hhead as ->. cbn [length] in Hlen.
    cbn [drop]. rewrite poly_hash_snoc, poly_hash_cons.
    replace (Z.of_nat (length T)) with (kk - 1) by lia.
    assert (Hpow : base ^ kk = base * base ^ (kk - 1)).
    { replace kk with (Z.succ (kk - 1)) at 1 by lia. apply Z.pow_succ_r. lia. }
    pose proof (Z.mod_pos_bound (base ^ kk) mod_ ltac:(unfold mod_; lia)) as HB.
    pose proof (base_pow_nonzero kk ltac:(lia)) as Hnz.
    rewrite (Z.mod_small (mod_ - _)) by lia.
    rewrite (Z.mod_eq (o * base ^ (kk - 1) + poly_hash T) mod_) by (unfold mod_; lia).
    rewrite (Z.mod_eq (base ^ kk) mod_) by (unfold mod_; lia).
    rewrite Hpow.
    set (q1 := (o * base ^ (kk - 1) + poly_hash T) / mod_).
    set (q2 := (base * base ^ (kk - 1)) / mod_).
    replace (base * (o * base ^ (kk - 1) + poly_hash T - mod_ * q1) + tok
             + (mod_ - (base * base ^ (kk - 1) - mod_ * q2)) * o)
      with (poly_hash T * base + tok + (o + q2 * o - base * q1) * mod_) by ring.
    apply Z_mod_plus_full.
Qed.

Lemma RollingHash_run_app rh l1 l2 :
  RollingHash_run rh (l1 ++ l2)
  = RollingHash_run rh l1 ++ RollingHash_run (RollingHash_feed rh l1) l2.
Proof.
  revert rh; induction l1 as [|t l1 IH]; intros rh; [reflexivity|].
  cbn [app RollingHash_run]. specialize (IH (RollingHash_call rh t).2).
  unfold RollingHash_feed in *. cbn [foldl].
  destruct (RollingHash_call rh t) as [v rh']. cbn [snd] in *.
  by rewrite IH.
Qed.

(** The value read at position [i] is the hash held after [i + 1] pushes. *)
Lemma rollingHashes_lookup (kk : Z) (tokens : list Z) (i : nat) :
  (i < length tokens)%nat ->
  rollingHashes kk tokens !! i
  = Some (rh_hash (RollingHash_feed (RollingHash_new kk) (take (S i) tokens))).
Proof.
  intros Hi. unfold rollingHashes.
  rewrite <- (take_drop (S i) tokens) at 1. rewrite RollingHash_run_app.
  destruct (lookup_lt_is_Some_2 tokens i Hi) as [t Ht].
  rewrite (take_S_r _ _ _ Ht), RollingHash_run_snoc, RollingHash_feed_snoc.
  rewrite lookup_app_l.
  2:{ rewrite length_app, RollingHash_run_length, length_take. cbn [length]. lia. }
  rewrite lookup_app_r by (rewrite RollingHash_run_length, length_take; lia).
  rewrite RollingHash_run_length, length_take.
  replace (i - i `min` length tokens)%nat with 0%nat by lia.
  reflexivity.
Qed.

(** X3.  For [k >= 1] and token codes, the hash read at position [i] is
    the polynomial hash of the window of the last [k] tokens ending at
    [i], reduced modulo 33554393; before [k] tokens have been read the
    window is filled up with zeros in front, and no value is held back. *)
Theorem rolling_hash_closed_form (kk : Z) (tokens : list Z) (i : nat) :
  1 <= kk < 2 ^ 64 -> Forall is_token tokens -> (i < length tokens)%nat ->
  rollingHashes kk tokens !! i
  = Some (poly_hash (last_window kk (take (S i) tokens)) mod 33554393).
Proof.
  intros Hk Htok Hi. rewrite rollingHashes_lookup by done.
  rewrite RollingHash_feed_poly; [reflexivity|done|].
  by apply Forall_take.
Qed.

Lemma rolling_hash_closed_form_witness :
  rollingHashes 3 [1; 2; 3; 4; 5] !! 3%nat
  = Some (poly_hash (last_window 3 (take 4 [1; 2; 3; 4; 5])) mod 33554393).
Proof.
  apply (rolling_hash_closed_form 3 [1; 2; 3; 4; 5] 3).
  - lia.
  - repeat constructor; unfold is_token; lia.
  - cbn. lia.
Defined.

Lemma last_window_full (kk : Z) (tokens : list Z) (i : nat) :
  1 <= kk -> (Z.to_nat kk <= S i)%nat -> (i < length tokens)%nat ->
  last_window kk (take (S i) tokens)
  = take (Z.to_nat kk) (drop (S i - Z.to_nat kk) tokens).
Proof.
  intros Hk Hfull Hi. unfold last_window.
  rewrite length_take, Nat.min_l by lia.
  rewrite drop_app_ge by (rewrite length_replicate; lia).
  rewrite length_replicate, take_drop_commute.
  f_equal. f_equal. lia.
Qed.

(** X4.  Once [k] tokens have been read the hash depends on nothing but
    the last [k] tokens: two positions, in the same or in different token
    sequences, whose windows of [k] tokens are equal yield equal hashes. *)
Theorem rolling_hash_window_only (kk : Z) (tokens1 tokens2 : list Z) (i1 i2 : nat) :
  1 <= kk < 2 ^ 64 -> Forall is_token tokens1 -> Forall is_token tokens2 ->
  (Z.to_nat kk <= S i1)%nat -> (i1 < length tokens1)%nat ->
  (Z.to_nat kk <= S i2)%nat -> (i2 < length tokens2)%nat ->
  take (Z.to_nat kk) (drop (S i1 - Z.to_nat kk) tokens1)
  = take (Z.to_nat kk) (drop (S i2 - Z.to_nat kk) tokens2) ->
  rollingHashes kk tokens1 !! i1 = rollingHashes kk tokens2 !! i2.
Proof.
  intros Hk Ht1 Ht2 Hf1 Hi1 Hf2 Hi2 Hwin.
  rewrite !rollingHashes_lookup by done.
  rewrite !RollingHash_feed_poly by (done || by apply Forall_take).
  rewrite !last_window_full by (done || lia). by rewrite Hwin.
Qed.

Lemma rolling_hash_window_only_witness :
  rollingHashes 3 [9; 1; 2; 3] !! 3%nat = rollingHashes 3 [7; 7; 7; 1; 2; 3; 8] !! 5%nat.
Proof.
  apply (rolling_hash_window_only 3 [9; 1; 2; 3] [7; 7; 7; 1; 2; 3; 8] 3 5);
    try (cbn; lia); try (repeat constructor; unfold is_token; lia).
Defined.

(** ** winnowFilter: what is emitted, and when *)

Lemma min_element_from_spec (whole l pre : list Z) (best : nat) (bestv : Z) :
  whole = pre ++ l -> whole !! best = Some bestv ->
  (forall y, y ∈ pre -> bestv <= y) ->
  exists x, whole !! min_element_from best bestv (length pre) l = Some x
            /\ forall y, y ∈ whole -> x <= y.
Proof.
  revert pre best bestv; induction l as [|x l IH]; intros pre best bestv Hw Hb Hmin.
  - cbn. exists bestv. split; [done|]. rewrite Hw, app_nil_r. exact Hmin.
  - cbn [min_element_from].
    assert (Hw' : whole = (pre ++ [x]) ++ l) by (rewrite <- app_assoc; exact Hw).
    assert (Hlen : S (length pre) = length (pre ++ [x])).
    { rewrite length_app. cbn. lia. }
    rewrite Hlen.
    destruct (x <? bestv) eqn:Hlt.
    + apply Z.ltb_lt in Hlt. apply (IH (pre ++ [x]) (length pre) x Hw').
      * rewrite Hw. rewrite lookup_app_r, Nat.sub_diag by lia. reflexivity.
      * intros y [Hy|Hy]%elem_of_app.
        -- specialize (Hmin y Hy). lia.
        -- apply list_elem_of_singleton in Hy. lia.
    + apply Z.ltb_ge in Hlt. apply (IH (pre ++ [x]) best bestv Hw' Hb).
      intros y [Hy|Hy]%elem_of_app; [by apply Hmin|].
      apply list_elem_of_singleton in Hy. lia.
Qed.

(** [min_element] points at a smallest element. *)
Lemma min_element_spec (h : list Z) :
  h <> [] ->
  exists x, h !! Z.to_nat (min_element h) = Some x /\ forall y, y ∈ h -> x <= y.
Proof.
  destruct h as [|x l]; [done|intros _]. unfold min_element.
  rewrite Nat2Z.id.
  apply (min_element_from_spec (x :: l) l [x] 0 x); [done|done|].
  intros y Hy. apply list_elem_of_singleton in Hy. lia.
Qed.

(** While fewer than [w] hashes have been read nothing is selected: the
    selected slot is still slot 0, which holds the initial maximum. *)
Lemma winnow_short_state (w : Z) (pre : list Z) :
  1 <= w < 2 ^ 32 -> Forall (fun v => v <= UINT64_MAX) pre ->
  Z.of_nat (length pre) < w ->
  winnow_run w (winnow_init w) pre
  = mkWinnow (UINT64_MAX :: pre
                ++ replicate (Z.to_nat w - 1 - length pre) UINT64_MAX)
             (Z.of_nat (length pre)) 0 [].
Proof.
  intros Hw. induction pre as [|v pre IH] using rev_ind; intros Hpre Hlen.
  - cbn [winnow_run foldl length app]. unfold winnow_init.
    destruct (Z.to_nat w) as [|n] eqn:En; [lia|].
    cbn [replicate]. do 3 f_equal. lia.
  - apply Forall_app in Hpre as [Hpre Hv]. inversion Hv as [|? ? Hv0 _]; subst.
    rewrite length_app in Hlen. cbn [length] in Hlen.
    rewrite winnow_run_snoc, IH by (done || lia). clear IH.
    unfold winnow_step. cbn [wn_r wn_h wn_min wn_filtered].
    rewrite wrap64_small by lia. rewrite Z.mod_small by lia.
    replace (Z.to_nat (Z.of_nat (length pre) + 1)) with (S (length pre)) by lia.
    replace (Z.to_nat w - 1 - length pre)%nat
      with (S (Z.to_nat w - 1 - length (pre ++ [v]))).
    2:{ rewrite length_app. cbn [length]. lia. }
    cbn [replicate].
    assert (Hins : <[S (length pre) := v]>
                     (UINT64_MAX :: pre ++ UINT64_MAX
                        :: replicate (Z.to_nat w - 1 - length (pre ++ [v])) UINT64_MAX)
                   = UINT64_MAX :: (pre ++ [v])
                       ++ replicate (Z.to_nat w - 1 - length (pre ++ [v])) UINT64_MAX).
    { transitivity
        (UINT64_MAX :: <[length pre := v]>
           (pre ++ UINT64_MAX
              :: replicate (Z.to_nat w - 1 - length (pre ++ [v])) UINT64_MAX));
        [reflexivity|].
      f_equal. rewrite insert_app_r_alt, Nat.sub_diag by lia.
      by rewrite <- app_assoc. }
    rewrite Hins.
    destruct (0 =? Z.of_nat (length pre) + 1) eqn:E; [apply Z.eqb_eq in E; lia|].
    assert (H0 : h_at (UINT64_MAX :: (pre ++ [v])
                         ++ replicate (Z.to_nat w - 1 - length (pre ++ [v])) UINT64_MAX) 0
                 = UINT64_MAX) by reflexivity.
    assert (Hr : h_at (UINT64_MAX :: (pre ++ [v])
                         ++ replicate (Z.to_nat w - 1 - length (pre ++ [v])) UINT64_MAX)
                   (Z.of_nat (length pre) + 1) = v).
    { unfold h_at. apply list_lookup_total_correct.
      replace (Z.to_nat (Z.of_nat (length pre) + 1)) with (S (length pre)) by lia.
      change (((pre ++ [v])
                 ++ replicate (Z.to_nat w - 1 - length (pre ++ [v])) UINT64_MAX)
                !! length pre = Some v).
      rewrite lookup_app_l by (rewrite length_app; cbn; lia).
      rewrite lookup_app_r, Nat.sub_diag by lia. reflexivity. }
    rewrite H0, Hr.
    destruct (UINT64_MAX <? v) eqn:E2; [apply Z.ltb_lt in E2; lia|].
    f_equal. rewrite length_app. cbn [length]. lia.
Qed.

(** X5.  For [1 <= w < 2 ^ 32], every fingerprint returned by
    [winnowFilter] is one of the hashes it was given, and there are at
    most as many fingerprints as hashes. *)
Theorem winnowFilter_selects (w : Z) (hashes : list Z) :
  1 <= w < 2 ^ 32 ->
  (forall v, v ∈ winnowFilter w hashes -> v ∈ hashes)
  /\ (length (winnowFilter w hashes) <= length hashes)%nat.
Proof.
  intros Hw. split.
  - intros v. by apply winnowFilter_subset.
  - apply winnowFilter_length.
Qed.

Lemma winnowFilter_selects_witness :
  (forall v, v ∈ winnowFilter 3 [5; 3; 3; 7] -> v ∈ [5; 3; 3; 7])
  /\ (length (winnowFilter 3%Z [5; 3; 3; 7]%Z) <= length ([5; 3; 3; 7]%Z : list Z))%nat.
Proof. apply winnowFilter_selects. lia. Defined.

(** X6.  Fewer than [w] hashes (values of a [uint64_t]) yield no
    fingerprint at all: nothing is emitted before the write position has
    come round to slot 0 again. *)
Theorem winnowFilter_short_input (w : Z) (hashes : list Z) :
  1 <= w < 2 ^ 32 -> Forall (fun v => v <= UINT64_MAX) hashes ->
  Z.of_nat (length hashes) < w ->
  winnowFilter w hashes = [].
Proof.
  intros Hw Hh Hlen. unfold winnowFilter.
  by rewrite winnow_short_state.
Qed.

Lemma winnowFilter_short_input_witness : winnowFilter 3 [5; 3] = [].
Proof.
  apply winnowFilter_short_input.
  - lia.
  - repeat constructor; unfold UINT64_MAX; lia.
  - cbn. lia.
Defined.

(** X7.  Exactly [w] hashes yield exactly one fingerprint, the smallest of
    them. *)
Theorem winnowFilter_first_window (w : Z) (hashes : list Z) :
  1 <= w < 2 ^ 32 -> Forall (fun v => v <= UINT64_MAX) hashes ->
  Z.of_nat (length hashes) = w ->
  exists m, winnowFilter w hashes = [m]
            /\ m ∈ hashes /\ forall x, x ∈ hashes -> m <= x.
Proof.
  intros Hw Hh Hlen.
  destruct hashes as [|v0 rest] using rev_ind; [cbn in Hlen; lia|]. clear IHrest.
  rename v0 into v, rest into pre.
  apply Forall_app in Hh as [Hpre _].
  rewrite length_app in Hlen. cbn [length] in Hlen.
  unfold winnowFilter.
  rewrite winnow_run_snoc, winnow_short_state by (done || lia).
  unfold winnow_step. cbn [wn_r wn_h wn_min wn_filtered].
  rewrite wrap64_small by lia.
  replace (Z.of_nat (length pre) + 1) with w by lia.
  rewrite Z_mod_same_full.
  replace (Z.to_nat w - 1 - length pre)%nat with 0%nat by lia.
  cbn [replicate Z.to_nat insert list_insert Z.eqb app_nil_r wn_filtered app].
  rewrite app_nil_r.
  destruct (min_element_spec (v :: pre) ltac:(done)) as (m & Hm & Hmin).
  exists m. unfold h_at. rewrite (list_lookup_total_correct _ _ _ Hm).
  split; [reflexivity|]. split.
  - apply list_elem_of_lookup_2 in Hm.
    apply elem_of_cons in Hm as [->|Hm]; apply elem_of_app; [right; by left|by left].
  - intros x [Hx|Hx]%elem_of_app; apply Hmin; [by right|].
    apply list_elem_of_singleton in Hx. subst. by left.
Qed.

Lemma winnowFilter_first_window_witness :
  exists m, winnowFilter 3 [5; 3; 4] = [m]
            /\ m ∈ [5; 3; 4] /\ forall x, x ∈ [5; 3; 4] -> m <= x.
Proof.
  apply winnowFilter_first_window.
  - lia.
  - repeat constructor; unfold UINT64_MAX; lia.
  - reflexivity.
Defined.

Lemma winnow_unit_state (pre : list Z) :
  exists x, winnow_run 1 (winnow_init 1) pre = mkWinnow [x] 0 0 pre.
Proof.
  induction pre as [|v pre [x IH]] using rev_ind.
  - by exists UINT64_MAX.
  - exists v. rewrite winnow_run_snoc, IH. reflexivity.
Qed.

(** X8.  With window size 1 every hash is a fingerprint: [winnowFilter]
    returns its input unchanged. *)
Theorem winnowFilter_window_one (hashes : list Z) :
  winnowFilter 1 hashes = hashes.
Proof.
  unfold winnowFilter. destruct (winnow_unit_state hashes) as [x ->]. reflexivity.
Qed.

(** ** addToGroup: what it keeps and how calls compose *)

Lemma record_hash_absorbed identifier (idx : Index) (h : Z) :
  identifier ∈ inverted idx h -> h ∈ forward idx identifier ->
  record_hash identifier idx h = idx.
Proof.
  unfold inverted, forward, record_hash. intros Hi Hg.
  destruct (index idx !! h) as [s|] eqn:Es; cbn [default] in Hi; [|set_solver].
  destruct (groups idx !! identifier) as [g|] eqn:Eg; cbn [default] in Hg; [|set_solver].
  rewrite !insert_into_eq, Es, Eg. simpl.
  assert ({[identifier]} ∪ s = s) as -> by set_solver.
  assert ({[h]} ∪ g = g) as -> by set_solver.
  rewrite !insert_id by done. by destruct idx.
Qed.

Lemma record_hash_fold_absorbed identifier (hashes : list Z) (idx : Index) :
  (forall h, h ∈ hashes -> identifier ∈ inverted idx h /\ h ∈ forward idx identifier) ->
  foldl (record_hash identifier) idx hashes = idx.
Proof.
  induction hashes as [|h hashes IH]; intros Hall; cbn [foldl]; [done|].
  destruct (Hall h ltac:(by left)) as [Hi Hg].
  rewrite record_hash_absorbed by done. apply IH.
  intros h' Hh'. apply Hall. by right.
Qed.

Section Composition.

Variable tokenize : string -> list Z.

Lemma addToGroup_resolved idx groupName sourceCode :
  identifiers (addToGroup tokenize idx groupName sourceCode) !! groupName
  = Some (resolve idx groupName).1.
Proof.
  rewrite (proj1 (addToGroup_identifiers tokenize idx groupName sourceCode)).
  apply resolve_registered.
Qed.

Lemma addToGroup_fingerprints idx groupName sourceCode tokens :
  fingerprints (addToGroup tokenize idx groupName sourceCode) tokens
  = fingerprints idx tokens.
Proof.
  unfold fingerprints.
  by destruct (addToGroup_params tokenize idx groupName sourceCode) as [-> ->].
Qed.

(** X9.  [addToGroup] never takes anything away: a registered name keeps
    its identifier, every forward set and every inverted-map entry keeps
    its members, and [k] and [w] stay as they are. *)
Theorem addToGroup_monotone (idx : Index) (groupName sourceCode : string) :
  let idx' := addToGroup tokenize idx groupName sourceCode in
  (forall n i, identifiers idx !! n = Some i -> identifiers idx' !! n = Some i)
  /\ (forall d, forward idx d ⊆ forward idx' d)
  /\ (forall F, inverted idx F ⊆ inverted idx' F)
  /\ k idx' = k idx /\ w idx' = w idx.
Proof.
  intros idx'. subst idx'. split; [|split; [|split]].
  - intros n i Hn.
    rewrite (proj1 (addToGroup_identifiers tokenize idx groupName sourceCode)).
    by apply resolve_identifiers_mono.
  - intros d F HF. rewrite addToGroup_unfold, elem_of_forward_fold, resolve_forward.
    by left.
  - intros F d Hd. rewrite addToGroup_unfold, elem_of_inverted_fold, resolve_inverted.
    by left.
  - apply addToGroup_params.
Qed.

(** X10.  Adding the same text under the same name a second time changes
    nothing: the index after the second call is the index after the
    first. *)
Theorem addToGroup_twice (idx : Index) (groupName sourceCode : string) :
  addToGroup tokenize (addToGroup tokenize idx groupName sourceCode)
             groupName sourceCode
  = addToGroup tokenize idx groupName sourceCode.
Proof.
  set (idx1 := addToGroup tokenize idx groupName sourceCode).
  rewrite (addToGroup_unfold tokenize idx1).
  assert (Hres : resolve idx1 groupName = ((resolve idx groupName).1, idx1)).
  { unfold resolve at 1. subst idx1. by rewrite addToGroup_resolved. }
  rewrite Hres. cbn [fst snd]. subst idx1.
  rewrite addToGroup_fingerprints.
  apply record_hash_fold_absorbed. intros h Hh.
  rewrite addToGroup_unfold, elem_of_inverted_fold, elem_of_forward_fold.
  split; right; done.
Qed.

(** X11.  A name that is not yet registered receives the current number
    of registered names, narrowed to 16 bits, as its identifier, and is
    entered in both directions of the registry; the identifiers of the
    other names are untouched. *)
Theorem addToGroup_new_name (idx : Index) (groupName sourceCode : string) :
  identifiers idx !! groupName = None ->
  let idx' := addToGroup tokenize idx groupName sourceCode in
  let id := Z.of_nat (size (identifiers idx)) mod 65536 in
  identifiers idx' = <[groupName := id]> (identifiers idx)
  /\ names idx' = <[id := groupName]> (names idx)
  /\ size (identifiers idx') = S (size (identifiers idx))
  /\ forward idx' id = forward idx id ∪ list_to_set (fingerprints idx (tokenize sourceCode)).
Proof.
  intros Hnew idx' id. subst idx'.
  destruct (addToGroup_identifiers tokenize idx groupName sourceCode) as [Hi Hn].
  assert (Hres : resolve idx groupName
                 = (id, mkIndex (index idx) (groups idx)
                          (<[groupName := id]> (identifiers idx))
                          (<[id := groupName]> (names idx)) (k idx) (w idx))).
  { unfold resolve. by rewrite Hnew. }
  rewrite Hi, Hn, Hres. cbn [snd identifiers names].
  split; [done|]. split; [done|]. split.
  - by apply map_size_insert_None.
  - apply set_eq. intros F.
    rewrite addToGroup_unfold, Hres, elem_of_forward_fold. cbn [fst snd].
    rewrite elem_of_union, elem_of_list_to_set. unfold forward. cbn [groups].
    naive_solver.
Qed.

(** X12.  A text with fewer tokens than the window size [w] contributes no
    fingerprint: its name is registered, but the inverted map and the
    forward sets stay exactly as they were. *)
Theorem addToGroup_short_text (idx : Index) (groupName sourceCode : string) :
  1 <= w idx < 2 ^ 32 ->
  Z.of_nat (length (tokenize sourceCode)) < w idx ->
  let idx' := addToGroup tokenize idx groupName sourceCode in
  index idx' = index idx /\ groups idx' = groups idx
  /\ is_Some (identifiers idx' !! groupName).
Proof.
  intros Hw Hlen idx'. subst idx'.
  assert (Hfp : fingerprints idx (tokenize sourceCode) = []).
  { unfold fingerprints, winnowFilter. rewrite winnow_short_state; [done|done| |].
    - apply Forall_forall. intros v Hv%RollingHash_run_range.
      unfold mod_, UINT64_MAX in *. lia.
    - unfold rollingHashes. by rewrite RollingHash_run_length. }
  split; [|split].
  - rewrite addToGroup_unfold, Hfp. cbn [foldl]. apply resolve_maps.
  - rewrite addToGroup_unfold, Hfp. cbn [foldl]. apply resolve_maps.
  - rewrite addToGroup_resolved. by eexists.
Qed.

End Composition.

(** ** getPair: what it answers and what it leaves alone *)

Lemma subscript_value `{Countable K} {V} (d : V) (m : gmap K V) (key : K) :
  (subscript d m key).1 = default d (m !! key).
Proof. unfold subscript. by destruct (m !! key). Qed.

Lemma subscript_lookup `{Countable K} {V} (d : V) (m : gmap K V) (key key' : K) :
  default d ((subscript d m key).2 !! key') = default d (m !! key').
Proof.
  unfold subscript. destruct (m !! key) eqn:E; cbn [snd]; [done|].
  destruct (decide (key = key')) as [<-|Hne].
  - by rewrite lookup_insert_eq, E.
  - by rewrite lookup_insert_ne.
Qed.

Lemma subscript_mono `{Countable K} {V} (d : V) (m : gmap K V) (key key' : K) v :
  m !! key' = Some v -> (subscript d m key).2 !! key' = Some v.
Proof.
  unfold subscript. destruct (m !! key) eqn:E; cbn [snd]; [done|].
  intros Hk. rewrite lookup_insert_ne; [done|congruence].
Qed.

(** The answer of [getPair] in terms of the forward sets. *)
Lemma getPair_answer (idx : Index) (a b : string) :
  (getPair idx a b).1
  = mkPair a b
      (wrap32 (Z.of_nat (size (forward idx (id_of idx a) ∩ forward idx (id_of idx b)))))
      (wrap32 (Z.of_nat (size (forward idx (id_of idx a)))))
      (wrap32 (Z.of_nat (size (forward idx (id_of idx b))))).
Proof.
  unfold getPair, id_of, forward.
  pose proof (subscript_value 0 (identifiers idx) a) as Hx.
  pose proof (subscript_lookup 0 (identifiers idx) a b) as Hy0.
  destruct (subscript 0 (identifiers idx) a) as [x ids1]. cbn [fst snd] in *.
  pose proof (subscript_value 0 ids1 b) as Hy. rewrite Hy0 in Hy.
  destruct (subscript 0 ids1 b) as [y ids2]. cbn [fst snd] in *.
  pose proof (subscript_value ∅ (groups idx) x) as HA.
  pose proof (subscript_lookup ∅ (groups idx) x y) as HB0.
  destruct (subscript ∅ (groups idx) x) as [A g1]. cbn [fst snd] in *.
  pose proof (subscript_value ∅ g1 y) as HB. rewrite HB0 in HB.
  destruct (subscript ∅ g1 y) as [B g2]. cbn [fst snd] in *.
  by subst.
Qed.

(** What [getPair] leaves as it is. *)
Lemma getPair_kept (idx : Index) (a b : string) :
  let idx' := (getPair idx a b).2 in
  index idx' = index idx /\ names idx' = names idx
  /\ k idx' = k idx /\ w idx' = w idx
  /\ (forall d, forward idx' d = forward idx d)
  /\ (forall n, id_of idx' n = id_of idx n)
  /\ (forall n i, identifiers idx !! n = Some i -> identifiers idx' !! n = Some i).
Proof.
  unfold getPair, id_of, forward.
  pose proof (fun n => subscript_lookup 0 (identifiers idx) a n) as H1.
  pose proof (fun n i => subscript_mono 0 (identifiers idx) a n i) as M1.
  destruct (subscript 0 (identifiers idx) a) as [x ids1]. cbn [fst snd] in *.
  pose proof (fun n => subscript_lookup 0 ids1 b n) as H2.
  pose proof (fun n i => subscript_mono 0 ids1 b n i) as M2.
  destruct (subscript 0 ids1 b) as [y ids2]. cbn [fst snd] in *.
  pose proof (fun d => subscript_lookup ∅ (groups idx) x d) as H3.
  destruct (subscript ∅ (groups idx) x) as [A g1]. cbn [fst snd] in *.
  pose proof (fun d => subscript_lookup ∅ g1 y d) as H4.
  destruct (subscript ∅ g1 y) as [B g2]. cbn [fst snd index names k w groups identifiers] in *.
  repeat split; try done.
  - intros d. by rewrite H4, H3.
  - intros n. by rewrite H2, H1.
  - intros n i Hn. by apply M2, M1.
Qed.

(** X13.  In every index state and for all names, registered or not,
    [getPair] is symmetric: exchanging the two names leaves [covered] as it
    is and exchanges [leftTotal] and [rightTotal]. *)
Theorem getPair_symmetric (idx : Index) (a b : string) :
  covered (getPair idx a b).1 = covered (getPair idx b a).1
  /\ leftTotal (getPair idx a b).1 = rightTotal (getPair idx b a).1
  /\ rightTotal (getPair idx a b).1 = leftTotal (getPair idx b a).1.
Proof.
  rewrite !getPair_answer. cbn [covered leftTotal rightTotal].
  split; [|done]. do 3 f_equal. set_solver.
Qed.

(** X14.  Comparing a name with itself reports full overlap in every
    index state: [covered], [leftTotal] and [rightTotal] are equal. *)
Theorem getPair_self (idx : Index) (a : string) :
  covered (getPair idx a a).1 = leftTotal (getPair idx a a).1
  /\ leftTotal (getPair idx a a).1 = rightTotal (getPair idx a a).1.
Proof.
  rewrite !getPair_answer. cbn [covered leftTotal rightTotal].
  split; [|done]. do 3 f_equal. set_solver.
Qed.

(** X15.  When both names are registered and both documents own a forward
    set, [getPair] changes nothing in the index and reports the size of
    the intersection of the two forward sets and the two sizes. *)
Theorem getPair_registered (idx : Index) (a b : string) (x y : Z) (A B : gset Z) :
  identifiers idx !! a = Some x -> identifiers idx !! b = Some y ->
  groups idx !! x = Some A -> groups idx !! y = Some B ->
  getPair idx a b
  = (mkPair a b (wrap32 (Z.of_nat (size (A ∩ B))))
            (wrap32 (Z.of_nat (size A))) (wrap32 (Z.of_nat (size B))),
     idx).
Proof.
  intros Ha Hb HA HB. unfold getPair, subscript.
  rewrite Ha, Hb, HA, HB. by destruct idx.
Qed.

(** X16.  The entries that [getPair] inserts never change an answer: after
    any [getPair] query every further [getPair] query returns what it would
    have returned before, the inverted map, the names, [k] and [w] are
    untouched, every forward set has the same members, and every
    registered name keeps its identifier. *)
Theorem getPair_answers_stable (idx : Index) (c d a b : string) :
  let idx' := (getPair idx c d).2 in
  (getPair idx' a b).1 = (getPair idx a b).1
  /\ index idx' = index idx /\ names idx' = names idx
  /\ k idx' = k idx /\ w idx' = w idx
  /\ (forall e, forward idx' e = forward idx e)
  /\ (forall n i, identifiers idx !! n = Some i -> identifiers idx' !! n = Some i).
Proof.
  intros idx'. subst idx'.
  destruct (getPair_kept idx c d) as (Hi & Hn & Hk & Hw & Hf & Hid & Hm).
  cbv zeta in *. repeat split; try done.
  rewrite !getPair_answer. by rewrite !Hid, !Hf.
Qed.

Lemma gset_range_size (X : gset Z) (n : Z) :
  0 <= n -> (forall x, x ∈ X -> 0 <= x < n) -> Z.of_nat (size X) <= n.
Proof.
  intros Hn HX.
  assert (Hsub : X ⊆ list_to_set (seqZ 0 n)).
  { intros x Hx. apply elem_of_list_to_set, elem_of_seqZ. specialize (HX x Hx). lia. }
  apply subseteq_size in Hsub.
  rewrite size_list_to_set in Hsub by apply NoDup_seqZ.
  rewrite length_seqZ in Hsub. lia.
Qed.

Section PairBounds.

Variable tokenize : string -> list Z.

Lemma build_forward_range kk ww calls d F :
  1 <= ww < 2 ^ 32 ->
  F ∈ forward (build tokenize kk ww calls) d -> 0 <= F < mod_.
Proof.
  intros Hw HF.
  apply (mirror_build tokenize kk ww calls) in HF.
  apply (ii_fp_range _ (IndexInv_build tokenize kk ww calls Hw)).
  unfold inverted in HF.
  destruct (index (build tokenize kk ww calls) !! F); [done|set_solver].
Qed.

(** X17.  On an index built by [addToGroup] calls with [w >= 1] the counts
    of [getPair] are exact, nothing wraps in 32 bits: [leftTotal] and
    [rightTotal] are the sizes of the two forward sets, [covered] is the
    size of their intersection and never exceeds either total. *)
Theorem getPair_counts (kk ww : Z) (calls : list (string * string)) (a b : string) :
  1 <= ww < 2 ^ 16 ->
  let idx := build tokenize kk ww calls in
  let p := (getPair idx a b).1 in
  leftTotal p = Z.of_nat (size (forward idx (id_of idx a)))
  /\ rightTotal p = Z.of_nat (size (forward idx (id_of idx b)))
  /\ covered p
     = Z.of_nat (size (forward idx (id_of idx a) ∩ forward idx (id_of idx b)))
  /\ covered p <= leftTotal p /\ covered p <= rightTotal p.
Proof.
  intros Hw idx p. subst p. rewrite getPair_answer.
  cbn [covered leftTotal rightTotal].
  assert (Hsz : forall d, Z.of_nat (size (forward idx d)) <= mod_).
  { intros d. apply gset_range_size; [unfold mod_; lia|].
    intros F HF. apply (build_forward_range kk ww calls d F); [lia|done]. }
  pose proof (Hsz (id_of idx a)) as Ha. pose proof (Hsz (id_of idx b)) as Hb.
  assert (Hl : (size (forward idx (id_of idx a) ∩ forward idx (id_of idx b))
                <= size (forward idx (id_of idx a)))%nat)
    by (apply subseteq_size; set_solver).
  assert (Hr : (size (forward idx (id_of idx a) ∩ forward idx (id_of idx b))
                <= size (forward idx (id_of idx b)))%nat)
    by (apply subseteq_size; set_solver).
  unfold mod_ in *. rewrite !wrap32_small by lia. lia.
Qed.

End PairBounds.

(** ** matchTokens: counts and failure *)

Lemma sharedHashes0_zero (l : list (string * Z)) (sh : gmap Z Z) (i : Z) :
  default 0 (sh !! i) = 0 ->
  default 0 (foldl (fun sh e => <[e.2 := 0]> sh) sh l !! i) = 0.
Proof.
  revert sh; induction l as [|[n0 i0] l IH]; intros sh Hsh; cbn [foldl snd]; [done|].
  apply IH. destruct (decide (i0 = i)) as [->|Hne].
  - by rewrite lookup_insert_eq.
  - by rewrite lookup_insert_ne.
Qed.

Lemma bump_fold_value (ds : list Z) (sh : gmap Z Z) (i : Z) :
  NoDup ds ->
  default 0 (foldl bump sh ds !! i)
  = if decide (i ∈ ds) then wrap32 (default 0 (sh !! i) + 1) else default 0 (sh !! i).
Proof.
  revert sh; induction ds as [|d ds IH]; intros sh Hnd; cbn [foldl].
  - rewrite decide_False; [done|apply not_elem_of_nil].
  - apply NoDup_cons in Hnd as [Hd Hnd]. rewrite (IH _ Hnd). unfold bump.
    destruct (decide (i = d)) as [->|Hne].
    + rewrite (decide_False (P := d ∈ ds)) by done.
      rewrite (decide_True (P := d ∈ d :: ds)) by left.
      by rewrite lookup_insert_eq.
    + rewrite lookup_insert_ne by done.
      destruct (decide (i ∈ ds)) as [Hin|Hnin].
      * rewrite decide_True; [done|by right].
      * rewrite decide_False; [done|]. rewrite not_elem_of_cons. done.
Qed.

Lemma NoDup_set_iter (s : gset Z) : NoDup (set_iter s).
Proof. unfold set_iter. rewrite merge_sort_Permutation. apply NoDup_elements. Qed.

Lemma hits_cons idx d h hs :
  hits idx d (h :: hs)
  = ((if decide (d ∈ inverted idx h) then 1 else 0) + hits idx d hs)%nat.
Proof.
  unfold hits. rewrite filter_cons. by destruct (decide (d ∈ inverted idx h)).
Qed.

Lemma hits_le idx d hs : (hits idx d hs <= length hs)%nat.
Proof. apply length_filter. Qed.

(** The counter of document [i] after the fingerprints [hs]: one more for
    every fingerprint that the document contains. *)
Lemma match_hash_fold_value idx (hs : list Z) (acc : Z * gmap Z Z) (i : Z) :
  0 <= default 0 (acc.2 !! i) ->
  default 0 (acc.2 !! i) + Z.of_nat (length hs) < 2 ^ 32 ->
  default 0 ((foldl (match_hash idx) acc hs).2 !! i)
  = default 0 (acc.2 !! i) + Z.of_nat (hits idx i hs).
Proof.
  revert acc; induction hs as [|h hs IH]; intros acc H0 Hlt; cbn [foldl].
  - unfold hits. cbn. lia.
  - cbn [length] in Hlt. rewrite hits_cons.
    assert (Hstep : default 0 ((match_hash idx acc h).2 !! i)
                    = default 0 (acc.2 !! i)
                      + (if decide (i ∈ inverted idx h) then 1 else 0)).
    { unfold match_hash, inverted. cbn [snd].
      destruct (index idx !! h) as [ids|]; simpl.
      - rewrite bump_fold_value by apply NoDup_set_iter.
        destruct (decide (i ∈ set_iter ids)) as [Hin|Hnin].
        + rewrite decide_True by (by apply elem_of_set_iter).
          apply wrap32_small. lia.
        + rewrite decide_False; [lia|]. by rewrite <- elem_of_set_iter.
      - rewrite decide_False by set_solver. lia. }
    rewrite IH; rewrite Hstep; destruct (decide (i ∈ inverted idx h)); lia.
Qed.

(** X18.  Whenever [matchTokens] returns, on any index and for fewer than
    [2 ^ 32] tokens, every result is of the form: left name ["external"],
    right name the name of some document identifier [i], [leftTotal] the
    number of fingerprints emitted for the input, [covered] the number of
    those emissions, repetitions included, whose inverted-map entry
    contains [i], which is at most [leftTotal], and [rightTotal] the size
    of the forward set of [i]. *)
Theorem matchTokens_counts (idx : Index) (tokens : list Z) (pairs : list Pair) (p : Pair) :
  Z.of_nat (length tokens) < 2 ^ 32 ->
  matchTokens idx tokens = Some pairs -> p ∈ pairs ->
  pair_left p = "external"%string
  /\ leftTotal p = Z.of_nat (length (fingerprints idx tokens))
  /\ exists i, names idx !! i = Some (pair_right p)
               /\ covered p = Z.of_nat (hits idx i (fingerprints idx tokens))
               /\ covered p <= leftTotal p
               /\ rightTotal p = wrap32 (Z.of_nat (size (forward idx i))).
Proof.
  intros Hlen Hm Hp. unfold matchTokens in Hm.
  set (sh0 := foldl (fun sh e => <[e.2 := 0]> sh) (∅ : gmap Z Z)
                (map_to_list (identifiers idx))) in Hm.
  set (acc := foldl (match_hash idx) (0, sh0) (fingerprints idx tokens)) in Hm.
  pose proof (fingerprints_length idx tokens) as Hfl.
  assert (Htotal : acc.1 = Z.of_nat (length (fingerprints idx tokens))).
  { subst acc. rewrite match_hash_fold_total by (cbn; lia). cbn [fst].
    apply wrap32_small. lia. }
  apply mapM_Some_1 in Hm.
  apply list_elem_of_lookup_1 in Hp as [j Hj].
  destruct (Forall2_lookup_r _ _ _ _ _ Hm Hj) as ([i c] & He & Hmk).
  apply list_elem_of_lookup_2, elem_of_map_to_list in He.
  unfold make_pair in Hmk. cbn [fst snd] in Hmk.
  destruct (names idx !! i) as [name|] eqn:En; [|discriminate].
  cbn in Hmk. injection Hmk as <-. cbn [pair_left pair_right covered leftTotal rightTotal].
  split; [done|]. split; [done|]. exists i. split; [done|].
  assert (Hc : c = Z.of_nat (hits idx i (fingerprints idx tokens))).
  { pose proof (match_hash_fold_value idx (fingerprints idx tokens) (0, sh0) i) as Hv.
    fold acc in Hv. rewrite He in Hv. cbn [default snd] in Hv.
    assert (H0 : default 0 (sh0 !! i) = 0).
    { subst sh0. apply sharedHashes0_zero. by rewrite lookup_empty. }
    rewrite H0 in Hv. simpl in Hv. apply Hv; lia. }
  split; [done|]. split.
  - rewrite Hc, Htotal. pose proof (hits_le idx i (fingerprints idx tokens)). lia.
  - unfold forward. by destruct (groups idx !! i).
Qed.

Lemma sharedHashes_domain (idx : Index) (tokens : list Z) (i : Z) :
  is_Some (sharedHashes idx tokens !! i)
  <-> (exists n, identifiers idx !! n = Some i)
      \/ (exists h, h ∈ fingerprints idx tokens /\ i ∈ inverted idx h).
Proof.
  unfold sharedHashes. rewrite match_hash_fold_is_Some. cbn [snd].
  rewrite sharedHashes0_is_Some, lookup_empty.
  setoid_rewrite elem_of_map_to_list. split.
  - intros [[[? [=]]|?]|?]; auto.
  - intros [?|?]; auto.
Qed.

Lemma make_pair_None idx total e :
  make_pair idx total e = None <-> names idx !! e.1 = None.
Proof. unfold make_pair. destruct (names idx !! e.1); cbn; split; congruence. Qed.

Lemma matchTokens_None_iff (idx : Index) (tokens : list Z) :
  matchTokens idx tokens = None
  <-> exists i, is_Some (sharedHashes idx tokens !! i) /\ names idx !! i = None.
Proof.
  unfold matchTokens. fold (sharedHashes idx tokens).
  rewrite mapM_None, Exists_exists. split.
  - intros ([i c] & Hin%elem_of_map_to_list & Hn%make_pair_None).
    exists i. split; [by eexists|done].
  - intros (i & [c Hc] & Hn). exists (i, c).
    split; [by apply elem_of_map_to_list|by apply make_pair_None].
Qed.

(** X19.  [matchTokens] throws exactly when a document identifier that it
    counts for has no name: an identifier of a registered name, or one
    listed in the inverted-map entry of a fingerprint of the input. *)
Theorem matchTokens_throws_iff (idx : Index) (tokens : list Z) :
  matchTokens idx tokens = None
  <-> exists i, names idx !! i = None
                /\ ((exists n, identifiers idx !! n = Some i)
                    \/ (exists h, h ∈ fingerprints idx tokens /\ i ∈ inverted idx h)).
Proof.
  rewrite matchTokens_None_iff. setoid_rewrite sharedHashes_domain. naive_solver.
Qed.

Lemma getPair_registers (idx : Index) (a b : string) :
  identifiers (getPair idx a b).2 !! a = Some (id_of idx a).
Proof.
  unfold getPair, id_of.
  assert (H1 : (subscript 0 (identifiers idx) a).2 !! a
               = Some (default 0 (identifiers idx !! a))).
  { unfold subscript. destruct (identifiers idx !! a) eqn:E; cbn; [done|].
    by rewrite lookup_insert_eq. }
  pose proof (fun i => subscript_mono 0 (subscript 0 (identifiers idx) a).2 b a i) as M.
  destruct (subscript 0 (identifiers idx) a) as [x ids1]. cbn [fst snd] in *.
  specialize (M _ H1).
  destruct (subscript 0 ids1 b) as [y ids2]. cbn [fst snd] in *.
  destruct (subscript ∅ (groups idx) x) as [A g1].
  destruct (subscript ∅ g1 y) as [B g2]. done.
Qed.

(** X20.  On an index without documents [matchTokens] returns the empty
    result, for any input.  After a [getPair] query on that index, whatever
    the two names, every [matchTokens] call throws: the query has
    registered its names under identifier 0, which has no name. *)
Theorem matchTokens_after_getPair_on_empty (kk ww : Z) (a b : string) (tokens : list Z) :
  matchTokens (Index_new kk ww) tokens = Some []
  /\ matchTokens (getPair (Index_new kk ww) a b).2 tokens = None.
Proof.
  split.
  - unfold matchTokens. fold (sharedHashes (Index_new kk ww) tokens).
    assert (Hempty : sharedHashes (Index_new kk ww) tokens = ∅).
    { apply map_empty. intros i. apply eq_None_not_Some.
      rewrite sharedHashes_domain. unfold inverted. cbn [Index_new identifiers index].
      intros [[n Hn]|(h & _ & Hi)].
      - by rewrite lookup_empty in Hn.
      - rewrite lookup_empty in Hi. set_solver. }
    by rewrite Hempty, map_to_list_empty.
  - apply matchTokens_None_iff. exists 0. split.
    + apply sharedHashes_domain. left. exists a.
      rewrite getPair_registers. unfold id_of. cbn. by rewrite lookup_empty.
    + rewrite (proj1 (proj2 (getPair_kept (Index_new kk ww) a b))). cbn.
      apply lookup_empty.
Qed.

Lemma hits_all idx d hs :
  (forall h, h ∈ hs -> d ∈ inverted idx h) -> hits idx d hs = length hs.
Proof.
  induction hs as [|h hs IH]; intros Hall; [reflexivity|].
  rewrite hits_cons, decide_True by (apply Hall; by left).
  rewrite IH; [reflexivity|]. intros h' Hh'. apply Hall. by right.
Qed.

Section SelfMatch.

Variable tokenize : string -> list Z.

Lemma build_fingerprints kk ww calls tokens :
  fingerprints (build tokenize kk ww calls) tokens
  = winnowFilter ww (rollingHashes kk tokens).
Proof.
  unfold fingerprints. by destruct (build_params tokenize kk ww calls) as [-> ->].
Qed.

(** Every text that was added is contained in the forward set of its
    name. *)
Lemma build_contains kk ww calls name src :
  (name, src) ∈ calls ->
  exists id, identifiers (build tokenize kk ww calls) !! name = Some id
             /\ forall h, h ∈ winnowFilter ww (rollingHashes kk (tokenize src)) ->
                          h ∈ forward (build tokenize kk ww calls) id.
Proof.
  induction calls as [|c calls IH] using rev_ind; intros Hin.
  - inversion Hin.
  - rewrite build_snoc. apply elem_of_app in Hin as [Hin|Hin].
    + destruct (IH Hin) as (id & Hid & Hfp). exists id. split.
      * rewrite (proj1 (addToGroup_identifiers tokenize _ c.1 c.2)).
        by apply resolve_identifiers_mono.
      * intros h Hh. rewrite addToGroup_unfold, elem_of_forward_fold, resolve_forward.
        left. by apply Hfp.
    + apply list_elem_of_singleton in Hin. subst c. cbn [fst snd].
      exists (resolve (build tokenize kk ww calls) name).1. split.
      * apply addToGroup_resolved.
      * intros h Hh. rewrite addToGroup_unfold, elem_of_forward_fold.
        right. split; [done|]. by rewrite build_fingerprints.
Qed.

(** X21.  Matching a text that was added to the index against the index
    finds it completely: on an index built by [addToGroup] calls with
    [w >= 1] and at most [2 ^ 16] names, [matchExternal] on the text of
    one of the calls returns a result for the name of that call whose
    [covered] equals [leftTotal], the number of fingerprints of the
    text. *)
Theorem matchExternal_finds_added_text (kk ww : Z) (calls : list (string * string))
    (name src : string) :
  1 <= ww < 2 ^ 16 ->
  Z.of_nat (size (identifiers (build tokenize kk ww calls))) <= 2 ^ 16 ->
  (name, src) ∈ calls ->
  Z.of_nat (length (tokenize src)) < 2 ^ 32 ->
  let idx := build tokenize kk ww calls in
  exists pairs p,
    matchExternal tokenize idx src = Some pairs
    /\ p ∈ pairs /\ pair_right p = name
    /\ covered p = leftTotal p
    /\ leftTotal p = Z.of_nat (length (fingerprints idx (tokenize src))).
Proof.
  intros Hw Hcap Hin Hlen idx. unfold matchExternal.
  destruct (well_formed_build tokenize kk ww calls ltac:(lia) Hcap) as [Hbij Hreg].
  fold idx in Hbij, Hreg.
  destruct (build_contains kk ww calls name src Hin) as (id & Hid & Hfp).
  fold idx in Hid, Hfp. rewrite <- (build_fingerprints kk ww calls) in Hfp.
  fold idx in Hfp.
  destruct (matchTokens idx (tokenize src)) as [pairs|] eqn:Hm.
  2:{ exfalso. apply matchTokens_None_iff in Hm as (i & Hdom & Hnone).
      apply sharedHashes_domain in Hdom as [[n Hn]|(h & _ & Hi)].
      - apply Hbij in Hn. congruence.
      - destruct (Hreg h i Hi) as [n Hn]. congruence. }
  pose proof (fingerprints_length idx (tokenize src)) as Hfl.
  assert (Hdom : is_Some (sharedHashes idx (tokenize src) !! id)).
  { apply sharedHashes_domain. left. by exists name. }
  destruct Hdom as [c Hc].
  assert (Hcv : c = Z.of_nat (length (fingerprints idx (tokenize src)))).
  { pose proof (match_hash_fold_value idx (fingerprints idx (tokenize src))
                  (0, foldl (fun sh e => <[e.2 := 0]> sh) (∅ : gmap Z Z)
                        (map_to_list (identifiers idx))) id) as Hv.
    fold (sharedHashes idx (tokenize src)) in Hv. rewrite Hc in Hv. cbn [snd] in Hv.
    rewrite sharedHashes0_zero in Hv by (by rewrite lookup_empty).
    simpl in Hv. rewrite Hv by lia. rewrite hits_all; [lia|].
    intros h Hh. apply (mirror_build tokenize kk ww calls). by apply Hfp. }
  unfold matchTokens in Hm. fold (sharedHashes idx (tokenize src)) in Hm.
  apply mapM_Some_1 in Hm.
  assert (He : (id, c) ∈ map_to_list (sharedHashes idx (tokenize src)))
    by (by apply elem_of_map_to_list).
  apply list_elem_of_lookup_1 in He as [j Hj].
  destruct (Forall2_lookup_l _ _ _ _ _ Hm Hj) as (p & Hp & Hmk).
  exists pairs, p. split; [done|]. split; [by eapply list_elem_of_lookup_2|].
  unfold make_pair in Hmk. cbn [fst snd] in Hmk.
  rewrite (proj1 (Hbij name id) Hid) in Hmk. cbn in Hmk. injection Hmk as <-.
  cbn [pair_right covered leftTotal].
  assert (Htotal : (foldl (match_hash idx)
                      (0, foldl (fun sh e => <[e.2 := 0]> sh) (∅ : gmap Z Z)
                            (map_to_list (identifiers idx)))
                      (fingerprints idx (tokenize src))).1
                   = Z.of_nat (length (fingerprints idx (tokenize src)))).
  { rewrite match_hash_fold_total by (cbn; lia). cbn [fst]. apply wrap32_small. lia. }
  rewrite Htotal. done.
Qed.

End SelfMatch.

(** ** The registry of a built index *)

Lemma names_cover_resolve idx groupName :
  (identifiers idx !! groupName = None -> Z.of_nat (size (identifiers idx)) < 2 ^ 16) ->
  (forall i, 0 <= i < Z.of_nat (size (identifiers idx)) -> is_Some (names idx !! i)) ->
  forall i, 0 <= i < Z.of_nat (size (identifiers (resolve idx groupName).2)) ->
            is_Some (names (resolve idx groupName).2 !! i).
Proof.
  intros Hcap Hcov i. unfold resolve.
  destruct (identifiers idx !! groupName) eqn:E; cbn [snd identifiers names]; [apply Hcov|].
  specialize (Hcap eq_refl). rewrite wrap16_small by lia.
  rewrite map_size_insert_None by done. intros Hi.
  rewrite lookup_insert_is_Some'.
  destruct (decide (i = Z.of_nat (size (identifiers idx)))); [by left|].
  right. apply Hcov. lia.
Qed.

Section RegistryOfBuild.

Variable tokenize : string -> list Z.

Lemma names_cover_build kk ww calls :
  Z.of_nat (size (identifiers (build tokenize kk ww calls))) <= 2 ^ 16 ->
  forall i, 0 <= i < Z.of_nat (size (identifiers (build tokenize kk ww calls))) ->
            is_Some (names (build tokenize kk ww calls) !! i).
Proof.
  induction calls as [|c calls IH] using rev_ind.
  - intros _ i. cbn. rewrite map_size_empty. lia.
  - rewrite build_snoc.
    destruct (addToGroup_identifiers tokenize (build tokenize kk ww calls) c.1 c.2)
      as [-> ->].
    pose proof (resolve_size (build tokenize kk ww calls) c.1) as Hmono.
    intros Hsize. apply names_cover_resolve.
    + intros Hnew. revert Hsize. unfold resolve. rewrite Hnew. cbn.
      rewrite map_size_insert_None by done. lia.
    + apply IH. lia.
Qed.

(** X22.  In an index built by [addToGroup] calls that holds [n] names,
    [n <= 2 ^ 16], the document identifiers are exactly [0 .. n - 1]:
    [names] is the inverse of [identifiers], every identifier lies below
    [n], and every number below [n] is the identifier of a name. *)
Theorem build_registry (kk ww : Z) (calls : list (string * string)) :
  Z.of_nat (size (identifiers (build tokenize kk ww calls))) <= 2 ^ 16 ->
  let idx := build tokenize kk ww calls in
  (forall name i, identifiers idx !! name = Some i <-> names idx !! i = Some name)
  /\ (forall name i, identifiers idx !! name = Some i ->
                     0 <= i < Z.of_nat (size (identifiers idx)))
  /\ (forall i, 0 <= i < Z.of_nat (size (identifiers idx)) ->
                exists name, identifiers idx !! name = Some i).
Proof.
  intros Hcap idx.
  destruct (Registry_build tokenize kk ww calls Hcap) as [Hbij Hdense].
  fold idx in Hbij, Hdense.
  split; [exact Hbij|]. split; [exact Hdense|].
  intros i Hi. destruct (names_cover_build kk ww calls Hcap i Hi) as [name Hn].
  exists name. by apply Hbij.
Qed.

End RegistryOfBuild.

(** ** The loading constructor on arbitrary documents *)

Lemma foldlM_invariant {A B} (f : A -> B -> option A) (P : A -> Prop) (l : list B) a a' :
  (forall a x a', P a -> f a x = Some a' -> P a') ->
  P a -> foldlM f a l = Some a' -> P a'.
Proof.
  intros Hstep. revert a; induction l as [|x l IH]; intros a Ha; cbn.
  - by intros [= <-].
  - destruct (f a x) as [a1|] eqn:E; cbn; [|done].
    apply IH. by eapply Hstep.
Qed.

Lemma loaded_ok_load_id hash acc tmp2 acc' :
  0 <= hash < 2 ^ 32 ->
  loaded_ok acc -> load_id hash acc tmp2 = Some acc' -> loaded_ok acc'.
Proof.
  intros Hh [Hm Hr]. unfold load_id.
  destruct (as_int64 tmp2) as [z|]; cbn; [|done]. intros [= <-].
  pose proof (wrap16_range z) as Hz.
  split; cbn [fst snd].
  - intros d F. rewrite !elem_of_insert_into, Hm. naive_solver.
  - intros d F. rewrite elem_of_insert_into. intros [Hd|[-> ->]]; [by apply Hr|done].
Qed.

Lemma loaded_ok_load_entry acc tmp acc' :
  loaded_ok acc -> load_entry acc tmp = Some acc' -> loaded_ok acc'.
Proof.
  intros Hok. unfold load_entry.
  destruct (as_array tmp) as [arr|]; cbn; [|done].
  destruct (elt arr 0 ≫= as_int64) as [z|]; cbn; [|done].
  destruct (elt arr 1 ≫= as_array) as [sIds|]; cbn; [|done].
  apply (foldlM_invariant _ loaded_ok); [|done].
  intros a x a'. apply loaded_ok_load_id.
  unfold wrap32. apply Z.mod_pos_bound. lia.
Qed.

(** X23.  Loading succeeds only on an object that has the four fields
    ["k"], ["w"], ["identifiers"] and ["index"], the first two numbers in
    the [int64] range and the last two arrays; the loaded [k] and [w] are
    those numbers narrowed to 16 bits. *)
Theorem deserialize_requires_fields (doc : json) (idx : Index) :
  deserialize doc = Some idx ->
  exists o kk ww sIdentifiers sIndex,
    doc = JObject o
    /\ at_key o "k" = Some (JNumber kk) /\ - 2 ^ 63 <= kk < 2 ^ 63
    /\ at_key o "w" = Some (JNumber ww) /\ - 2 ^ 63 <= ww < 2 ^ 63
    /\ at_key o "identifiers" = Some (JArray sIdentifiers)
    /\ at_key o "index" = Some (JArray sIndex)
    /\ k idx = wrap16 kk /\ w idx = wrap16 ww.
Proof.
  unfold deserialize. destruct doc as [| | |o]; cbn; try done.
  destruct (at_key o "k") as [[kk| | |]|] eqn:Ek; cbn; try done.
  destruct ((- 2 ^ 63 <=? kk) && (kk <? 2 ^ 63)) eqn:Hk; cbn; [|done].
  destruct (at_key o "w") as [[ww| | |]|] eqn:Ew; cbn; try done.
  destruct ((- 2 ^ 63 <=? ww) && (ww <? 2 ^ 63)) eqn:Hw; cbn; [|done].
  destruct (at_key o "identifiers") as [[| |sIds|]|] eqn:Ei; cbn; try done.
  destruct (foldlM load_identifier (∅, ∅) sIds) as [reg|]; cbn; [|done].
  destruct (at_key o "index") as [[| |sIdx|]|] eqn:Ex; cbn; try done.
  destruct (foldlM load_entry (∅, ∅) sIdx) as [maps|]; cbn; [|done].
  intros [= <-]. exists o, kk, ww, sIds, sIdx.
  apply andb_true_iff in Hk as [Hk1%Z.leb_le Hk2%Z.ltb_lt].
  apply andb_true_iff in Hw as [Hw1%Z.leb_le Hw2%Z.ltb_lt].
  repeat split; done.
Qed.

(** X24.  Whatever document is loaded, the resulting index has mirrored
    maps, a document is in the inverted-map entry of a fingerprint exactly
    when the fingerprint is in its forward set, and holds only
    fingerprints below [2 ^ 32] and document identifiers below [2 ^ 16]. *)
Theorem deserialize_consistent (doc : json) (idx : Index) :
  deserialize doc = Some idx ->
  (forall d F, d ∈ inverted idx F <-> F ∈ forward idx d)
  /\ (forall d F, d ∈ inverted idx F -> 0 <= F < 2 ^ 32 /\ 0 <= d < 2 ^ 16).
Proof.
  unfold deserialize. destruct (as_object doc) as [o|]; cbn; [|done].
  destruct (at_key o "k" ≫= as_int64) as [kk|]; cbn; [|done].
  destruct (at_key o "w" ≫= as_int64) as [ww|]; cbn; [|done].
  destruct (at_key o "identifiers" ≫= as_array) as [sIds|]; cbn; [|done].
  destruct (foldlM load_identifier (∅, ∅) sIds) as [reg|]; cbn; [|done].
  destruct (at_key o "index" ≫= as_array) as [sIdx|]; cbn; [|done].
  destruct (foldlM load_entry (∅, ∅) sIdx) as [maps|] eqn:Em; cbn; [|done].
  intros [= <-]. unfold inverted, forward. cbn [index groups].
  apply (foldlM_invariant _ loaded_ok _ _ _ loaded_ok_load_entry) in Em; [exact Em|].
  split; cbn [fst snd]; intros d F; rewrite ?lookup_empty; set_solver.
Qed.

(** ** compareFiles *)

Section CompareFiles.

Variable tokenize : string -> list Z.

(** [compareFiles] fails exactly when one of the two files cannot be
    read; once both are read the comparison itself cannot fail. *)
Lemma compareFiles_fails_iff (fs : gmap string string) (f1 f2 : string) :
  compareFiles tokenize fs f1 f2 = None <-> fs !! f1 = None \/ fs !! f2 = None.
Proof.
  unfold compareFiles, readFile.
  destruct (fs !! f1) as [c1|]; cbn; [|naive_solver].
  destruct (fs !! f2) as [c2|]; cbn; naive_solver.
Qed.

(** X25.  Two files with the same contents, under the same or under
    different names, compare as fully covered: the pair that
    [compareFiles] prints has [covered = leftTotal = rightTotal]. *)
Theorem compareFiles_same_contents (fs : gmap string string) (f1 f2 contents : string) :
  fs !! f1 = Some contents -> fs !! f2 = Some contents ->
  exists p, compareFiles tokenize fs f1 f2 = Some p
            /\ pair_left p = f1 /\ pair_right p = f2
            /\ covered p = leftTotal p /\ leftTotal p = rightTotal p.
Proof.
  intros H1 H2. unfold compareFiles, readFile. rewrite H1, H2. cbn.
  eexists. split; [reflexivity|]. rewrite getPair_answer.
  cbn [pair_left pair_right covered leftTotal rightTotal].
  split; [done|]. split; [done|].
  set (idx0 := Index_new 17 23).
  set (idx1 := addToGroup tokenize idx0 f1 contents).
  set (idx2 := addToGroup tokenize idx1 f2 contents).
  assert (Hx : id_of idx2 f1 = (resolve idx0 f1).1).
  { unfold id_of. subst idx2.
    rewrite (proj1 (addToGroup_identifiers tokenize idx1 f2 contents)).
    erewrite resolve_identifiers_mono; [reflexivity|].
    subst idx1. apply addToGroup_resolved. }
  assert (Hy : id_of idx2 f2 = (resolve idx1 f2).1).
  { unfold id_of. subst idx2. by rewrite addToGroup_resolved. }
  assert (Hfwd : forall d F,
             F ∈ forward idx2 d
             <-> (d = (resolve idx0 f1).1 \/ d = (resolve idx1 f2).1)
                 /\ F ∈ fingerprints idx0 (tokenize contents)).
  { intros d F. subst idx2. rewrite addToGroup_unfold, elem_of_forward_fold.
    rewrite resolve_forward. subst idx1.
    rewrite addToGroup_fingerprints, addToGroup_unfold, elem_of_forward_fold.
    rewrite resolve_forward. unfold forward at 1. cbn. rewrite lookup_empty.
    set_solver. }
  assert (Heq : forward idx2 (id_of idx2 f1) = forward idx2 (id_of idx2 f2)).
  { apply set_eq. intros F. rewrite !Hfwd, Hx, Hy. naive_solver. }
  rewrite Heq. split; [|done]. do 3 f_equal. set_solver.
Qed.

End CompareFiles.

(** ** Worked instances of the further properties *)

Lemma addToGroup_new_name_witness :
  identifiers example_index !! "c.js"%string = None
  /\ size (identifiers (addToGroup char_codes example_index "c.js" "let z;"))
     = S (size (identifiers example_index)).
Proof.
  assert (H : identifiers example_index !! "c.js"%string = None)
    by (vm_compute; reflexivity).
  split; [exact H|].
  destruct (addToGroup_new_name char_codes example_index "c.js" "let z;" H)
    as (_ & _ & Hs & _).
  exact Hs.
Defined.

Lemma addToGroup_short_text_witness :
  index (addToGroup char_codes example_index "tiny.js" "ab") = index example_index
  /\ groups (addToGroup char_codes example_index "tiny.js" "ab") = groups example_index
  /\ is_Some (identifiers (addToGroup char_codes example_index "tiny.js" "ab")
                !! "tiny.js"%string).
Proof.
  apply (addToGroup_short_text char_codes example_index "tiny.js" "ab").
  - change (w example_index) with 3. lia.
  - vm_compute. reflexivity.
Defined.

Lemma getPair_registered_witness :
  getPair example_index "a.js" "b.js"
  = (mkPair "a.js" "b.js"
       (wrap32 (Z.of_nat (size (forward example_index 0 ∩ forward example_index 1))))
       (wrap32 (Z.of_nat (size (forward example_index 0))))
       (wrap32 (Z.of_nat (size (forward example_index 1)))),
     example_index).
Proof.
  apply (getPair_registered example_index "a.js" "b.js" 0 1);
    vm_compute; reflexivity.
Defined.

Lemma getPair_counts_witness :
  covered (getPair example_index "a.js" "b.js").1
  <= leftTotal (getPair example_index "a.js" "b.js").1.
Proof.
  destruct (getPair_counts char_codes 3 3
              [("a.js", "function f() { return 1; }"); ("b.js", "var x = f();")]%string
              "a.js" "b.js" ltac:(lia)) as (_ & _ & _ & H & _).
  exact H.
Defined.

Lemma matchTokens_counts_witness :
  matchTokens example_index (char_codes "function f() { return 1; }")
  = Some [mkPair "external" "b.js" 1 14 6; mkPair "external" "a.js" 14 14 14]
  /\ exists i, names example_index !! i = Some "b.js"%string
               /\ 1 = Z.of_nat (hits example_index i
                                  (fingerprints example_index
                                     (char_codes "function f() { return 1; }"))).
Proof.
  assert (Hm : matchTokens example_index (char_codes "function f() { return 1; }")
               = Some [mkPair "external" "b.js" 1 14 6;
                       mkPair "external" "a.js" 14 14 14])
    by (vm_compute; reflexivity).
  split; [exact Hm|].
  destruct (matchTokens_counts example_index (char_codes "function f() { return 1; }")
              _ (mkPair "external" "b.js" 1 14 6)
              ltac:(vm_compute; reflexivity) Hm ltac:(left))
    as (_ & _ & i & Hn & Hc & _).
  exists i. split; [exact Hn|exact Hc].
Defined.

Lemma matchExternal_finds_added_text_witness :
  exists pairs p,
    matchExternal char_codes example_index "function f() { return 1; }" = Some pairs
    /\ p ∈ pairs /\ pair_right p = "a.js"%string
    /\ covered p = leftTotal p
    /\ leftTotal p
       = Z.of_nat (length (fingerprints example_index
                             (char_codes "function f() { return 1; }"))).
Proof.
  apply (matchExternal_finds_added_text char_codes 3 3
           [("a.js", "function f() { return 1; }"); ("b.js", "var x = f();")]%string
           "a.js" "function f() { return 1; }").
  - lia.
  - vm_compute. discriminate.
  - left.
  - vm_compute. reflexivity.
Defined.

Lemma build_registry_witness :
  exists name, identifiers example_index !! name = Some 1.
Proof.
  destruct (build_registry char_codes 3 3
              [("a.js", "function f() { return 1; }"); ("b.js", "var x = f();")]%string)
    as (_ & _ & H).
  - vm_compute. discriminate.
  - apply H. vm_compute. split; [discriminate|reflexivity].
Defined.

Lemma deserialize_requires_fields_witness :
  exists o kk ww sIdentifiers sIndex,
    serialize example_index = JObject o
    /\ at_key o "k" = Some (JNumber kk) /\ - 2 ^ 63 <= kk < 2 ^ 63
    /\ at_key o "w" = Some (JNumber ww) /\ - 2 ^ 63 <= ww < 2 ^ 63
    /\ at_key o "identifiers" = Some (JArray sIdentifiers)
    /\ at_key o "index" = Some (JArray sIndex)
    /\ k example_index = wrap16 kk /\ w example_index = wrap16 ww.
Proof.
  apply (deserialize_requires_fields (serialize example_index) example_index).
  apply (roundtrip_build char_codes 3 3
           [("a.js", "function f() { return 1; }"); ("b.js", "var x = f();")]%string);
    [lia|lia|vm_compute; discriminate|reflexivity|reflexivity].
Defined.

Lemma deserialize_consistent_witness :
  (forall d F, d ∈ inverted example_index F <-> F ∈ forward example_index d)
  /\ (forall d F, d ∈ inverted example_index F -> 0 <= F < 2 ^ 32 /\ 0 <= d < 2 ^ 16).
Proof.
  apply (deserialize_consistent (serialize example_index) example_index).
  apply (roundtrip_build char_codes 3 3
           [("a.js", "function f() { return 1; }"); ("b.js", "var x = f();")]%string);
    [lia|lia|vm_compute; discriminate|reflexivity|reflexivity].
Defined.

Lemma compareFiles_same_contents_witness :
  compareFiles char_codes
    {[ "a.js"%string := "function f() { return 1; } var x = f();"%string;
       "b.js"%string := "function f() { return 1; } var x = f();"%string ]}
    "a.js" "b.js"
  = Some (mkPair "a.js" "b.js" 8 8 8)
  /\ exists p,
       compareFiles char_codes
         {[ "a.js"%string := "function f() { return 1; } var x = f();"%string;
            "b.js"%string := "function f() { return 1; } var x = f();"%string ]}
         "a.js" "b.js"
       = Some p
       /\ pair_left p = "a.js"%string /\ pair_right p = "b.js"%string
       /\ covered p = leftTotal p /\ leftTotal p = rightTotal p.
Proof.
  split; [vm_compute; reflexivity|].
  apply (compareFiles_same_contents char_codes _ "a.js" "b.js"
           "function f() { return 1; } var x = f();");
    vm_compute; reflexivity.
Defined.
